(** * ThreadPool.h: a fixed-size worker pool, as an interleaving transition system

    The pool of [include/ThreadPool.h] is shared by its worker threads and by
    the threads that call its member functions.  Every statement of the source
    that touches a member of the pool, the mutex or the condition variable is
    one transition of the thread that executes it; a schedule is a list of
    labels naming the thread that moves next.  Statements that run under
    [mt_] and touch only members that are always accessed under [mt_]
    ([tasks_]) are grouped with the neighbouring statement of the same
    critical section.  The reads and writes of [allowNewTasks_],
    [terminate_] and [working_] that the source performs without the mutex
    take effect at once and in the order of the schedule; the data races
    that C++ sees in them are not tracked, and [Undefined] marks the
    misuse of a container only. *)

From Stdlib Require Import Ascii.
From stdpp Require Import base tactics option list strings pretty.

(** ** Tasks *)

(** What a call of a [std::function<void()>] can do as far as the worker's
    [try]/[catch] can tell: return, throw an object whose class derives from
    [std::exception] (carrying [what()]), or throw anything else. *)
Inductive outcome :=
| Returns
| ThrowsStd (what : string)
| ThrowsOther.

Record Task := { task_id : nat; body : outcome }.

(** ** Threads *)

(** Who holds [mt_]. *)
Inductive owner :=
| OWorker (w : nat)
| OClient (c : nat).

(** Where a worker thread stands in [ThreadPoolWorker::operator()]. *)
Inductive worker_pc :=
| WTop                 (* l.189-193: about to construct the unique_lock *)
| WLocked              (* l.195: holds mt_, about to test tasks_.empty() *)
| WAboutToWait         (* l.197: flag cleared, about to call cv_.wait(lock) *)
| WWaiting             (* l.197: inside cv_.wait, mt_ released, not woken *)
| WNotified            (* l.197: woken, cv_.wait has to take mt_ again *)
| WCheckTerm           (* l.200: holds mt_, about to test terminate_ *)
| WHasTask (t : Task)  (* l.209: mt_ released, currentTask holds t *)
| WRunning (t : Task)  (* l.210: inside currentTask() *)
| WExited.             (* l.202: operator() has returned *)

(** An element of [workers_]: the thread and whether the [std::thread]
    object is still joinable. *)
Record thread := { wpc : worker_pc; joinable : bool }.

(** The member functions a caller can invoke. *)
Inductive call :=
| AddTask (t : Task)
| WaitUntilComplete (allowNewTasks abandonTasks terminatePool : bool)
| Destroy.

(** Where a calling thread stands. *)
Inductive client_pc :=
| CIdle                          (* outside the pool's member functions *)
| CThrew                         (* std::logic_error left waitUntilComplete *)
| A_Check1 (t : Task)            (* l.103 *)
| A_Lock (t : Task)              (* l.109 *)
| A_Check2 (t : Task)            (* l.110, holds mt_ *)
| A_Push (t : Task)              (* l.115, holds mt_ *)
| A_Notify                       (* l.117 *)
| D_Entry (a b c : bool)         (* l.129 *)
| D_SetAllow (a b c : bool)      (* l.134 *)
| D_AbLock (c : bool)            (* l.138 *)
| D_AbLoop (c : bool)            (* l.139-140, holds mt_ *)
| D_WaitLock (c : bool)          (* l.145 *)
| D_WaitCheck (c : bool)         (* l.146-149, holds mt_ *)
| D_WaitSleep (c : bool)         (* l.152 *)
| D_Term                         (* l.157 *)
| D_NotifyAll                    (* l.158 *)
| D_Join (k : nat)               (* l.159-162, at workers_[k] *)
| D_Poll (k : nat)               (* l.165, std::any_of at working_[k] *)
| D_PollSleep                    (* l.166 *)
| D_Open.                        (* l.169 *)

(** ** The pool *)

(** The members of [class ThreadPool] ([log_] .. [terminate_]; [cv_] has no
    state of its own: its waiters are the workers at [WWaiting]), the calling
    threads, and three history variables that the transitions only append to
    and never read: every task pushed, every task popped (with [true] when a
    worker took it and [false] when [waitUntilComplete] discarded it), and
    every task body that was run (with the worker that ran it). *)
Record State := mkState {
  log_ : option (list string);     (* std::ostream*: None is nullptr *)
  workers_ : list thread;
  working_ : list bool;
  tasks_ : list Task;              (* front of the queue first *)
  mt_ : option owner;
  allowNewTasks_ : bool;
  terminate_ : bool;
  callers : list client_pc;
  pushed : list Task;
  popped : list (Task * bool);
  executed : list (nat * Task)
}.

Definition set_log (x : option (list string)) (s : State) : State :=
  mkState x (workers_ s) (working_ s) (tasks_ s) (mt_ s) (allowNewTasks_ s)
    (terminate_ s) (callers s) (pushed s) (popped s) (executed s).
Definition set_workers (x : list thread) (s : State) : State :=
  mkState (log_ s) x (working_ s) (tasks_ s) (mt_ s) (allowNewTasks_ s)
    (terminate_ s) (callers s) (pushed s) (popped s) (executed s).
Definition set_working (x : list bool) (s : State) : State :=
  mkState (log_ s) (workers_ s) x (tasks_ s) (mt_ s) (allowNewTasks_ s)
    (terminate_ s) (callers s) (pushed s) (popped s) (executed s).
Definition set_tasks (x : list Task) (s : State) : State :=
  mkState (log_ s) (workers_ s) (working_ s) x (mt_ s) (allowNewTasks_ s)
    (terminate_ s) (callers s) (pushed s) (popped s) (executed s).
Definition set_mt (x : option owner) (s : State) : State :=
  mkState (log_ s) (workers_ s) (working_ s) (tasks_ s) x (allowNewTasks_ s)
    (terminate_ s) (callers s) (pushed s) (popped s) (executed s).
Definition set_allow (x : bool) (s : State) : State :=
  mkState (log_ s) (workers_ s) (working_ s) (tasks_ s) (mt_ s) x
    (terminate_ s) (callers s) (pushed s) (popped s) (executed s).
Definition set_terminate (x : bool) (s : State) : State :=
  mkState (log_ s) (workers_ s) (working_ s) (tasks_ s) (mt_ s)
    (allowNewTasks_ s) x (callers s) (pushed s) (popped s) (executed s).
Definition set_callers (x : list client_pc) (s : State) : State :=
  mkState (log_ s) (workers_ s) (working_ s) (tasks_ s) (mt_ s)
    (allowNewTasks_ s) (terminate_ s) x (pushed s) (popped s) (executed s).
Definition note_push (t : Task) (s : State) : State :=
  mkState (log_ s) (workers_ s) (working_ s) (tasks_ s) (mt_ s)
    (allowNewTasks_ s) (terminate_ s) (callers s) (pushed s ++ [t]) (popped s)
    (executed s).
Definition note_pop (t : Task) (taken : bool) (s : State) : State :=
  mkState (log_ s) (workers_ s) (working_ s) (tasks_ s) (mt_ s)
    (allowNewTasks_ s) (terminate_ s) (callers s) (pushed s)
    (popped s ++ [(t, taken)]) (executed s).
Definition note_run (w : nat) (t : Task) (s : State) : State :=
  mkState (log_ s) (workers_ s) (working_ s) (tasks_ s) (mt_ s)
    (allowNewTasks_ s) (terminate_ s) (callers s) (pushed s) (popped s)
    (executed s ++ [(w, t)]).

(** What one transition of one thread leads to. *)
Inductive result :=
| Ok (s : State)
| Blocked      (* the thread cannot move now, or there is no such thread *)
| Undefined    (* the statement has undefined behaviour *)
| Aborted.     (* an exception left a thread function: std::terminate *)

(** ** Messages *)

Definition NUL : ascii := "000"%char.
Definition LF : string := String "010"%char EmptyString.
Definition TAB : string := String "009"%char EmptyString.

(** [std::string::c_str()] read back as a C string, and [std::string(const
    char* )]: the characters before the first NUL. *)
Fixpoint c_str (s : string) : string :=
  match s with
  | EmptyString => EmptyString
  | String a r => if decide (a = NUL) then EmptyString else String a (c_str r)
  end.

(** [ThreadPool::logMessage], l.175-179. *)
Definition logMessage (msg : string) (s : State) : State :=
  match log_ s with
  | None => s
  | Some out => set_log (Some (out ++ [c_str msg])) s
  end.

Definition addTask_error : string :=
  "ERROR in ThreadPool::addTask(F): " +:+
  "Attempting to add task to a stopped thread pool.".

(** The message built at l.213-216; [std::to_string(id_)] is the decimal
    numeral and [std::string(e.what())] stops at the first NUL. *)
Definition worker_error (id : nat) (what : string) : string :=
  "ERROR in ThreadPoolWorker[" +:+ pretty id +:+ "] " +:+
  "task. Original message is as follows:" +:+ LF +:+ TAB +:+
  c_str what +:+ LF +:+
  "Ignoring exception and continuing." +:+ LF.

(** ** Construction *)

(** A thread that has just been started: [std::thread(ThreadPoolWorker(..))]
    at the top of its loop, joinable. *)
Definition fresh_thread : thread := {| wpc := WTop; joinable := true |}.

(** One iteration of the loop at l.89-92: [working_.push_back(false)] and a
    new thread running [ThreadPoolWorker( *this, i)]; the worker's [id_] is
    its position in [workers_]. *)
Definition spawn (s : State) : State :=
  set_workers (workers_ s ++ [fresh_thread])
    (set_working (working_ s ++ [false]) s).

Fixpoint spawn_loop (remaining : nat) (s : State) : State :=
  match remaining with
  | 0 => s
  | S k => spawn_loop k (spawn s)
  end.

(** The members as their initialisers leave them (l.52-59) before the
    constructor body runs. *)
Definition members_init (logStream : option (list string)) : State :=
  mkState logStream [] [] [] None true false [] [] [] [].




(** The pool of [n] threads: what the constructor returns for a count
    that an [unsigned int] can hold. *)
Definition constructed (n : nat) (logStream : option (list string)) : State :=
  spawn_loop n (members_init logStream).

(** A constructed pool together with [nCallers] threads that may call it. *)
Definition boot (nThreads : nat) (logStream : option (list string))
    (nCallers : nat) : State :=
  set_callers (replicate nCallers CIdle) (constructed nThreads logStream).

(** ** Transitions *)

(** The worker [w], whose entry of [workers_] is [th], continues at [pc]. *)
Definition goto (w : nat) (th : thread) (pc : worker_pc) (s : State) : State :=
  set_workers (<[w := {| wpc := pc; joinable := joinable th |}]> (workers_ s)) s.

(** The caller [c] continues at [pc]. *)
Definition at_pc (c : nat) (pc : client_pc) (s : State) : State :=
  set_callers (<[c := pc]> (callers s)) s.

(** Constructing a [lock_guard] or [unique_lock] on [mt_]: the thread goes
    on only when nobody holds the mutex. *)
Definition lock (o : owner) (s : State) : option State :=
  match mt_ s with
  | None => Some (set_mt (Some o) s)
  | Some _ => None
  end.

Definition unlock (s : State) : State := set_mt None s.

Definition waiting (th : thread) : bool :=
  match wpc th with WWaiting => true | _ => false end.

Definition wake (th : thread) : thread :=
  {| wpc := WNotified; joinable := joinable th |}.

(** [cv_.notify_all()]: every thread blocked in [cv_.wait] is woken. *)
Definition notify_all (s : State) : State :=
  set_workers ((λ th, if waiting th then wake th else th) <$> workers_ s) s.

(** [cv_.notify_one()]: nothing happens when no thread waits; otherwise
    one waiting thread, the one at [pick], is woken. *)
Definition notify_one (pick : nat) (s : State) : option State :=
  if existsb waiting (workers_ s) then
    match workers_ s !! pick with
    | Some th =>
        if waiting th then Some (set_workers (<[pick := wake th]> (workers_ s)) s)
        else None
    | None => None
    end
  else Some s.

(** [ThreadPoolWorker::operator()], l.188-219, one statement at a time.
    [working_[id_]] is a [std::vector] access without bounds check, and
    [front()] and [pop()] on an empty [std::queue] are undefined. *)
Definition worker_step (w : nat) (s : State) : result :=
  match workers_ s !! w with
  | None => Blocked
  | Some th =>
      match wpc th with
      | WTop =>
          match lock (OWorker w) s with
          | Some s' => Ok (goto w th WLocked s')
          | None => Blocked
          end
      | WLocked =>
          match tasks_ s with
          | [] =>
              if decide (w < length (working_ s)) then
                Ok (goto w th WAboutToWait
                      (set_working (<[w := false]> (working_ s)) s))
              else Undefined
          | _ :: _ => Ok (goto w th WCheckTerm s)
          end
      | WAboutToWait => Ok (goto w th WWaiting (unlock s))
      | WWaiting => Blocked
      | WNotified =>
          match lock (OWorker w) s with
          | Some s' => Ok (goto w th WCheckTerm s')
          | None => Blocked
          end
      | WCheckTerm =>
          if terminate_ s && bool_decide (tasks_ s = []) then
            Ok (goto w th WExited (unlock s))
          else
            match tasks_ s with
            | [] => Undefined
            | t :: q =>
                Ok (goto w th (WHasTask t)
                      (unlock (note_pop t true (set_tasks q s))))
            end
      | WHasTask t =>
          if decide (w < length (working_ s)) then
            Ok (goto w th (WRunning t)
                  (set_working (<[w := true]> (working_ s)) s))
          else Undefined
      | WRunning t =>
          match body t with
          | Returns => Ok (goto w th WTop (note_run w t s))
          | ThrowsStd what =>
              Ok (goto w th WTop
                    (logMessage (worker_error w what) (note_run w t s)))
          | ThrowsOther => Aborted
          end
      | WExited => Blocked
      end
  end.

(** [cv_.wait(lock)] may return although nobody notified. *)
Definition spurious_step (w : nat) (s : State) : result :=
  match workers_ s !! w with
  | Some th => if waiting th then Ok (goto w th WNotified s) else Blocked
  | None => Blocked
  end.

(** The first statement of a member function; the destructor (l.96-98) is
    the call [waitUntilComplete(false, true, true)]. *)
Definition entry (op : call) : client_pc :=
  match op with
  | AddTask t => A_Check1 t
  | WaitUntilComplete a b c => D_Entry a b c
  | Destroy => D_Entry false true true
  end.

Definition call_step (c : nat) (op : call) (s : State) : result :=
  match callers s !! c with
  | Some CIdle | Some CThrew => Ok (at_pc c (entry op) s)
  | _ => Blocked
  end.

(** Where [waitUntilComplete] continues at l.155. *)
Definition after_queue (terminatePool : bool) : client_pc :=
  if terminatePool then D_Term else D_Poll 0.

(** [ThreadPool::addTask], l.102-118, one statement at a time, for the
    caller [c] that stands at [pc]. *)
Definition addTask (c pick : nat) (pc : client_pc) (s : State) : result :=
  match pc with
  | A_Check1 t =>
      if allowNewTasks_ s then Ok (at_pc c (A_Lock t) s)
      else Ok (at_pc c CIdle (logMessage addTask_error s))
  | A_Lock t =>
      match lock (OClient c) s with
      | Some s' => Ok (at_pc c (A_Check2 t) s')
      | None => Blocked
      end
  | A_Check2 t =>
      if allowNewTasks_ s then Ok (at_pc c (A_Push t) s)
      else Ok (at_pc c CIdle (unlock (logMessage addTask_error s)))
  | A_Push t =>
      Ok (at_pc c A_Notify
            (unlock (note_push t (set_tasks (tasks_ s ++ [t]) s))))
  | A_Notify =>
      match notify_one pick s with
      | Some s' => Ok (at_pc c CIdle s')
      | None => Blocked
      end
  | _ => Blocked
  end.

(** [ThreadPool::waitUntilComplete], l.126-171, one statement at a time,
    for the caller [c] that stands at [pc]. *)
Definition waitUntilComplete (c : nat) (pc : client_pc) (s : State) : result :=
  match pc with
  | D_Entry a b c' =>
      if a && (b || c') then Ok (at_pc c CThrew s)
      else Ok (at_pc c (D_SetAllow a b c') s)
  | D_SetAllow a b c' =>
      Ok (at_pc c (if b then D_AbLock c' else D_WaitLock c')
            (set_allow a s))
  | D_AbLock c' =>
      match lock (OClient c) s with
      | Some s' => Ok (at_pc c (D_AbLoop c') s')
      | None => Blocked
      end
  | D_AbLoop c' =>
      match tasks_ s with
      | [] => Ok (at_pc c (after_queue c') (unlock s))
      | t :: q =>
          Ok (at_pc c (D_AbLoop c') (note_pop t false (set_tasks q s)))
      end
  | D_WaitLock c' =>
      match lock (OClient c) s with
      | Some s' => Ok (at_pc c (D_WaitCheck c') s')
      | None => Blocked
      end
  | D_WaitCheck c' =>
      match tasks_ s with
      | [] => Ok (at_pc c (after_queue c') (unlock (set_allow false s)))
      | _ :: _ => Ok (at_pc c (D_WaitSleep c') (unlock s))
      end
  | D_WaitSleep c' => Ok (at_pc c (D_WaitLock c') s)
  | D_Term => Ok (at_pc c D_NotifyAll (set_terminate true s))
  | D_NotifyAll => Ok (at_pc c (D_Join 0) (notify_all s))
  | D_Join k =>
      match workers_ s !! k with
      | None => Ok (at_pc c CIdle s)
      | Some th =>
          if joinable th then
            match wpc th with
            | WExited =>
                Ok (at_pc c (D_Join (S k))
                      (set_workers
                         (<[k := {| wpc := WExited; joinable := false |}]>
                            (workers_ s)) s))
            | _ => Blocked
            end
          else Ok (at_pc c (D_Join (S k)) s)
      end
  | D_Poll k =>
      match working_ s !! k with
      | None => Ok (at_pc c D_Open s)
      | Some true => Ok (at_pc c D_PollSleep s)
      | Some false => Ok (at_pc c (D_Poll (S k)) s)
      end
  | D_PollSleep => Ok (at_pc c (D_Poll 0) s)
  | D_Open => Ok (at_pc c CIdle (set_allow true s))
  | _ => Blocked
  end.

(** Inside [waitUntilComplete]. *)
Definition in_drain (pc : client_pc) : bool :=
  match pc with
  | D_Entry _ _ _ | D_SetAllow _ _ _ | D_AbLock _ | D_AbLoop _
  | D_WaitLock _ | D_WaitCheck _ | D_WaitSleep _ | D_Term | D_NotifyAll
  | D_Join _ | D_Poll _ | D_PollSleep | D_Open => true
  | _ => false
  end.

(** The next statement of caller [c], in the member function it is in. *)
Definition client_step (c pick : nat) (s : State) : result :=
  match callers s !! c with
  | None => Blocked
  | Some pc =>
      if in_drain pc then waitUntilComplete c pc s else addTask c pick pc s
  end.

(** Which thread moves next.  [LClient c pick] lets caller [c] execute its
    next statement; [pick] names the thread that a [notify_one] wakes. *)
Inductive label :=
| LWorker (w : nat)
| LSpurious (w : nat)
| LCall (c : nat) (op : call)
| LClient (c pick : nat).

Definition step (l : label) (s : State) : result :=
  match l with
  | LWorker w => worker_step w s
  | LSpurious w => spurious_step w s
  | LCall c op => call_step c op s
  | LClient c pick => client_step c pick s
  end.

(** A schedule, run until it ends or a transition does not yield a state. *)
Fixpoint run (tr : list label) (s : State) : result :=
  match tr with
  | [] => Ok s
  | l :: tr' =>
      match step l s with
      | Ok s' => run tr' s'
      | r => r
      end
  end.

(** The states a pool of [n] workers with [m] calling threads can be in. *)
Definition reachable (n : nat) (logStream : option (list string)) (m : nat)
    (s : State) : Prop :=
  ∃ tr, run tr (boot n logStream m) = Ok s.

(** The schedules in which no wait returns without a notification. *)
Definition genuine (l : label) : bool :=
  match l with LSpurious _ => false | _ => true end.

(** ** Re-arming *)

(** Modelled from the spec: how [respawn] re-creates a dead worker thread,
    which the source does not define.  A thread that has returned is
    replaced by a new one, at the top of its loop; a thread that is alive is
    left alone. *)
Definition revive (th : thread) : thread :=
  match wpc th with WExited => fresh_thread | _ => th end.

(** Modelled from the spec: [ThreadPool::respawn], declared at l.49 of
    [ThreadPool.h], has no definition in the sources.  The specification
    calls it re-creating worker threads after a prior terminate, restoring
    the pool to a usable state, and leaves how dead threads are re-created
    to the implementation: here every dead thread is replaced in place, and
    the two lifecycle flags are put back to their initial values. *)
Definition respawn (s : State) : State :=
  set_terminate false (set_allow true (set_workers (revive <$> workers_ s) s)).

(** Modelled from the spec: [ThreadPool::reset], declared at l.48 of
    [ThreadPool.h], has no definition in the sources.  The specification
    describes it in one breath with [respawn], as re-arming a terminated or
    emptied pool. *)
Definition reset (s : State) : State := respawn s.

(** ** Observations *)

(** The state a schedule leads to from [s0] ([s0] itself when the
    schedule cannot be run to its end). *)
Definition after (tr : list label) (s0 : State) : State :=
  match run tr s0 with Ok s => s | _ => s0 end.

Definition completes (tr : list label) (s0 : State) : bool :=
  match run tr s0 with Ok _ => true | _ => false end.

(** The labels of the worker threads: no caller moves. *)
Definition worker_label (l : label) : bool :=
  match l with LWorker _ | LSpurious _ => true | _ => false end.

(** The task a worker has taken from the queue and not finished. *)
Definition held (th : thread) : list Task :=
  match wpc th with WHasTask t | WRunning t => [t] | _ => [] end.

Definition in_hand (s : State) : list Task := workers_ s ≫= held.

(** The tasks the workers took from the queue, and the tasks that
    [waitUntilComplete] threw away, both in the order of their removal. *)
Definition taken (s : State) : list Task :=
  (filter (λ e, e.2 = true) (popped s)).*1.

Definition discarded (s : State) : list Task :=
  (filter (λ e, e.2 = false) (popped s)).*1.

(** The transitions of a schedule, each with the state it starts from. *)
Fixpoint history (tr : list label) (s : State) : list (State * label) :=
  match tr with
  | [] => []
  | l :: tr' =>
      (s, l) :: match step l s with Ok s' => history tr' s' | _ => [] end
  end.

(** The statements executed by caller [c]. *)
Definition own (c : nat) (e : State * label) : bool :=
  match e.2 with LClient c0 _ => bool_decide (c0 = c) | _ => false end.

Definition own_history (c : nat) (h : list (State * label)) :=
  filter (λ e, own c e = true) h.

(** ** Invariants *)

(** What the source maintains about the busy flag of worker [w]: it is
    set inside the task body and clear inside [cv_.wait]. *)
Definition flag_ok (s : State) (w : nat) (th : thread) : Prop :=
  match wpc th with
  | WRunning _ => working_ s !! w = Some true
  | WAboutToWait | WWaiting | WNotified => working_ s !! w = Some false
  | _ => True
  end.

Definition flags_ok (s : State) : Prop :=
  ∀ w th, workers_ s !! w = Some th → flag_ok s w th.

(** The queue is first-in first-out: what has left it, in the order of
    leaving, followed by what is in it, is what was pushed, in the order
    of pushing. *)
Definition fifo (s : State) : Prop := pushed s = (popped s).*1 ++ tasks_ s.

(** The bodies that were run and the tasks in the workers' hands are the
    tasks the workers took: as a collection, and for a single worker also
    in the same order. *)
Definition accounted (s : State) : Prop :=
  (executed s).*2 ++ in_hand s ≡ₚ taken s.

Definition in_order (s : State) : Prop :=
  (executed s).*2 ++ in_hand s = taken s.

(** How one transition changes what was run, what the workers took and
    what they hold: not at all, or worker [w] takes [t], or worker [w]
    has run [t]. *)
Inductive hand_change (s s' : State) : Prop :=
| hand_same :
    executed s' = executed s → taken s' = taken s → in_hand s' = in_hand s →
    hand_change s s'
| hand_take w t pre post :
    w < length (workers_ s) →
    pre = take w (workers_ s) ≫= held →
    post = drop (S w) (workers_ s) ≫= held →
    executed s' = executed s → taken s' = taken s ++ [t] →
    in_hand s = pre ++ post → in_hand s' = pre ++ [t] ++ post →
    hand_change s s'
| hand_run w t pre post :
    w < length (workers_ s) →
    pre = take w (workers_ s) ≫= held →
    post = drop (S w) (workers_ s) ≫= held →
    executed s' = executed s ++ [(w, t)] → taken s' = taken s →
    in_hand s = pre ++ [t] ++ post → in_hand s' = pre ++ post →
    hand_change s s'.

(** ** The mutex *)

(** The statements a thread executes with [mt_] held. *)
Definition holds_w (pc : worker_pc) : bool :=
  match pc with WLocked | WAboutToWait | WCheckTerm => true | _ => false end.

Definition holds_c (pc : client_pc) : bool :=
  match pc with
  | A_Check2 _ | A_Push _ | D_AbLoop _ | D_WaitCheck _ => true
  | _ => false
  end.

(** A thread inside a critical section is the holder of [mt_]. *)
Definition lock_ok (s : State) : Prop :=
  (∀ w th, workers_ s !! w = Some th → holds_w (wpc th) = true →
           mt_ s = Some (OWorker w)) ∧
  (∀ c pc, callers s !! c = Some pc → holds_c pc = true →
           mt_ s = Some (OClient c)).

(** A thread object that is no longer joinable was joined after its
    thread had returned. *)
Definition joined_ok (s : State) : Prop :=
  ∀ w th, workers_ s !! w = Some th → joinable th = false → wpc th = WExited.

Definition retired (th : thread) : Prop :=
  wpc th = WExited ∧ joinable th = false.

(** ** Who uses the pool, and how *)

(** About to push, l.115. *)
Definition pushing (pc : client_pc) : bool :=
  match pc with A_Push _ => true | _ => false end.

Definition submit_call (op : call) : bool :=
  match op with AddTask _ => true | _ => false end.

(** While caller [c] is inside [waitUntilComplete], [c] starts no other
    call and the other callers start nothing but [addTask]. *)
Definition quiet (c : nat) (l : label) : bool :=
  match l with
  | LCall c' op => negb (bool_decide (c' = c)) && submit_call op
  | _ => true
  end.

(** The callers start nothing but [addTask]. *)
Definition submitting (l : label) : bool :=
  match l with LCall _ op => submit_call op | _ => true end.

(** No caller but [c] is inside [waitUntilComplete]. *)
Definition others_submit (c : nat) (s : State) : Prop :=
  ∀ c' pc, callers s !! c' = Some pc → c' ≠ c → in_drain pc = false.

Definition nobody_drains (s : State) : Prop :=
  ∀ c pc, callers s !! c = Some pc → in_drain pc = false.

Definition no_push (s : State) : Prop :=
  ∀ c' pc, callers s !! c' = Some pc → pushing pc = false.

(** The first [k] threads of [workers_] have been joined. *)
Definition joined_upto (k : nat) (s : State) : Prop :=
  ∀ i th, workers_ s !! i = Some th → i < k → joinable th = false.

(** Intake is closed, the queue is empty and no [addTask] is past its
    second test of [allowNewTasks_]. *)
Definition drained (s : State) : Prop :=
  allowNewTasks_ s = false ∧ tasks_ s = [] ∧ no_push s.

(** What holds while a caller stands at [pc] inside a
    [waitUntilComplete(_, _, true)], and after it has returned. *)
Definition closing_at (pc : client_pc) (s : State) : Prop :=
  match pc with
  | D_Entry _ _ true | CThrew | D_SetAllow false _ true => True
  | D_AbLock true | D_AbLoop true | D_WaitLock true | D_WaitCheck true
  | D_WaitSleep true => allowNewTasks_ s = false
  | D_Term => drained s
  | D_NotifyAll => drained s ∧ terminate_ s = true
  | D_Join k => drained s ∧ terminate_ s = true ∧ joined_upto k s
  | CIdle =>
      drained s ∧ terminate_ s = true ∧ joined_upto (length (workers_ s)) s
  | _ => False
  end.

Definition closing (c : nat) (s : State) : Prop :=
  ∃ pc, callers s !! c = Some pc ∧ closing_at pc s.

(** The pool after a terminating [waitUntilComplete] has returned. *)
Definition shut (s : State) : Prop :=
  nobody_drains s ∧ drained s ∧ terminate_ s = true ∧
  joined_upto (length (workers_ s)) s.

(** The thread that moves is not a caller inside [waitUntilComplete]. *)
Definition outsider (l : label) (s : State) : Prop :=
  match l with
  | LClient c0 _ => ∃ pc, callers s !! c0 = Some pc ∧ in_drain pc = false
  | LCall _ op => submit_call op = true
  | _ => True
  end.

(** The label moves caller [c]. *)
Definition moved_by (c : nat) (l : label) : bool :=
  match l with
  | LClient c0 _ | LCall c0 _ => bool_decide (c0 = c)
  | _ => false
  end.

(** ** What a draining caller has seen *)

(** Caller [c] reads [working_[i]] at l.165 and finds it false; worker [i]
    is not inside a task body at that moment. *)
Definition idle_read (c i : nat) (e : State * label) : Prop :=
  callers e.1 !! c = Some (D_Poll i) ∧
  working_ e.1 !! i = Some false ∧
  ∀ th t, workers_ e.1 !! i = Some th → wpc th ≠ WRunning t.

(** [k] consecutive statements of caller [c] that read the flags
    [0 .. k-1], in this order, and find them false. *)
Definition idle_scan (c k : nat) (scan : list (State * label)) : Prop :=
  length scan = k ∧ ∀ i e, scan !! i = Some e → idle_read c i e.

(** What holds while a caller stands at [pc] inside a
    [waitUntilComplete(_, _, false)], and after it has returned; [h] are
    the statements the caller has executed. *)
Definition reopening_at (c : nat) (pc : client_pc)
    (h : list (State * label)) (s : State) : Prop :=
  match pc with
  | D_Entry _ _ false | D_SetAllow _ _ false | D_AbLock false
  | D_AbLoop false | D_WaitLock false | D_WaitCheck false
  | D_WaitSleep false | D_PollSleep | CThrew => True
  | D_Poll k =>
      k ≤ length (working_ s) ∧
      ∃ pre scan, h = pre ++ scan ∧ idle_scan c k scan
  | D_Open =>
      ∃ pre scan e,
        h = pre ++ scan ++ [e] ∧ idle_scan c (length (working_ s)) scan ∧
        callers e.1 !! c = Some (D_Poll (length (working_ s)))
  | CIdle =>
      ∃ pre scan e1 e2,
        h = pre ++ scan ++ [e1; e2] ∧
        idle_scan c (length (working_ s)) scan ∧
        callers e1.1 !! c = Some (D_Poll (length (working_ s))) ∧
        callers e2.1 !! c = Some D_Open ∧
        allowNewTasks_ s = true
  | _ => False
  end.

Definition reopening (c : nat) (h : list (State * label)) (s : State) : Prop :=
  ∃ pc, callers s !! c = Some pc ∧ reopening_at c pc (own_history c h) s.

(** Intake is open and nobody is about to change that. *)
Definition open_pool (s : State) : Prop :=
  nobody_drains s ∧ allowNewTasks_ s = true.

(** ** Scenarios *)

(** A task that returns normally, one that throws a [std::runtime_error]
    and one that throws an [int]. *)
Definition plain (i : nat) : Task := {| task_id := i; body := Returns |}.
Definition failing (i : nat) (what : string) : Task :=
  {| task_id := i; body := ThrowsStd what |}.
Definition wild (i : nat) : Task := {| task_id := i; body := ThrowsOther |}.

(** Worker 0 goes to sleep on the empty queue. *)
Definition falls_asleep : list label :=
  [ LWorker 0;     (* l.193: takes mt_ *)
    LWorker 0;     (* l.195-196: queue empty, working_[0] = false *)
    LWorker 0 ].   (* l.197: cv_.wait releases mt_ and blocks *)

(** Caller 0 runs [addTask(t)] from its first to its last statement;
    the [notify_one] wakes worker 0 if it waits. *)
Definition submits (t : Task) : list label :=
  [ LCall 0 (AddTask t);
    LClient 0 0;   (* l.103: allowNewTasks_ is set *)
    LClient 0 0;   (* l.109: takes mt_ *)
    LClient 0 0;   (* l.110: allowNewTasks_ is set *)
    LClient 0 0;   (* l.115-116: push, mt_ released *)
    LClient 0 0 ]. (* l.117: notify_one *)

(** Worker 0, woken or awake, takes the task at the front and runs it. *)
Definition wakes_and_runs : list label :=
  [ LWorker 0;     (* l.197: the wait takes mt_ again *)
    LWorker 0;     (* l.200-206: front, pop, mt_ released *)
    LWorker 0;     (* l.209: working_[0] = true *)
    LWorker 0 ].   (* l.210: the task body *)

Definition takes_and_runs : list label :=
  [ LWorker 0;     (* l.193: takes mt_ *)
    LWorker 0;     (* l.195: queue not empty *)
    LWorker 0;     (* l.200-206: front, pop, mt_ released *)
    LWorker 0;     (* l.209: working_[0] = true *)
    LWorker 0 ].   (* l.210: the task body *)

(** A pool of one worker and one caller that calls nothing but
    [addTask], once.  The worker, awake, takes the task as soon as it is
    pushed, runs it and goes to sleep on the empty queue; only then does
    the caller reach its [notify_one], which wakes the worker for a task
    that is gone. *)
Definition late_notify : list label :=
  [ LCall 0 (AddTask (plain 1));
    LClient 0 0;   (* l.103: allowNewTasks_ is set *)
    LClient 0 0;   (* l.109: takes mt_ *)
    LClient 0 0;   (* l.110: allowNewTasks_ is set *)
    LClient 0 0 ]  (* l.115-116: push, mt_ released *)
  ++ takes_and_runs ++ falls_asleep ++
  [ LClient 0 0;   (* l.117: notify_one wakes worker 0 *)
    LWorker 0 ].   (* l.197: the wait of worker 0 takes mt_ again *)

(** One task is submitted to the sleeping worker of a pool of one, and
    the caller abandons the queue before the woken worker has taken the
    mutex again: [waitUntilComplete(false, true, false)] runs to its end. *)
Definition stale_wakeup : list label :=
  falls_asleep ++ submits (plain 1) ++
  [ LCall 0 (WaitUntilComplete false true false);
    LClient 0 0;   (* l.129: the combination is legal *)
    LClient 0 0;   (* l.134 *)
    LClient 0 0;   (* l.138: takes mt_ *)
    LClient 0 0;   (* l.139-140: pops the task *)
    LClient 0 0;   (* l.139: queue empty, mt_ released *)
    LClient 0 0;   (* l.165: working_[0] is false *)
    LClient 0 0;   (* l.165: end of working_ *)
    LClient 0 0;   (* l.169 *)
    LWorker 0 ].   (* l.197: the wait of worker 0 takes mt_ again *)

(** In a pool of two, the task that woke worker 0 is taken by worker 1
    before worker 0 has the mutex again.  Only [addTask] is called. *)
Definition stolen_wakeup : list label :=
  falls_asleep ++ submits (plain 1) ++
  [ LWorker 1;     (* l.193: takes mt_ *)
    LWorker 1;     (* l.195: queue not empty *)
    LWorker 1;     (* l.200-206: front, pop, mt_ released *)
    LWorker 0 ].   (* l.197: the wait of worker 0 takes mt_ again *)

(** A faulting task followed by a plain one, on a pool of one. *)
Definition fault_then_plain : list label :=
  falls_asleep ++ submits (failing 1 "boom") ++ submits (plain 2) ++
  wakes_and_runs ++ takes_and_runs.

(** Two tasks are queued for the sleeping worker of a pool of one, which
    then runs the first of them. *)
Definition first_of_two : list label :=
  falls_asleep ++ submits (plain 1) ++ submits (plain 2) ++ wakes_and_runs.

(** Five tasks from one producer to a pool of one worker, all run. *)
Definition five_tasks : list label :=
  falls_asleep ++
  submits (plain 1) ++ submits (plain 2) ++ submits (plain 3) ++
  submits (plain 4) ++ submits (plain 5) ++
  wakes_and_runs ++ takes_and_runs ++ takes_and_runs ++ takes_and_runs ++
  takes_and_runs.

(** Caller 0 runs [waitUntilComplete(false, false, true)] on a pool whose
    only worker sleeps; the worker is woken, leaves its loop and is
    joined. *)
Definition retire_idle_pool : list label :=
  [ LClient 0 0;   (* l.129: the combination is legal *)
    LClient 0 0;   (* l.134 *)
    LClient 0 0;   (* l.145: takes mt_ *)
    LClient 0 0;   (* l.146-149: queue empty, mt_ released *)
    LClient 0 0;   (* l.157 *)
    LClient 0 0;   (* l.158: notify_all wakes worker 0 *)
    LWorker 0;     (* l.197: the wait takes mt_ again *)
    LWorker 0;     (* l.200-202: returns *)
    LClient 0 0;   (* l.160-161: joins worker 0 *)
    LClient 0 0 ]. (* l.159: end of workers_ *)

(** The pool of one sleeping worker on which caller 0 has just called
    [waitUntilComplete(false, false, true)], and the same pool after
    [retire_idle_pool]. *)
Definition idle_pool_entered : State :=
  after (falls_asleep ++ [LCall 0 (WaitUntilComplete false false true)])
    (boot 1 None 1).

Definition idle_pool_retired : State := after retire_idle_pool idle_pool_entered.

(** The pool is destroyed by caller 0 while two tasks are queued and
    its only worker, woken by the first [addTask], has not yet taken the
    mutex again. *)
Definition destroy_with_backlog : list label :=
  [ LCall 0 Destroy;
    LClient 0 0;   (* l.129: the combination is legal *)
    LClient 0 0;   (* l.134 *)
    LClient 0 0;   (* l.138: takes mt_ *)
    LClient 0 0;   (* l.139-140: pops the first task *)
    LClient 0 0;   (* l.139-140: pops the second task *)
    LClient 0 0;   (* l.139: queue empty, mt_ released *)
    LClient 0 0;   (* l.157 *)
    LClient 0 0;   (* l.158: notify_all, nobody waits *)
    LWorker 0;     (* l.197: the wait takes mt_ again *)
    LWorker 0;     (* l.200-202: returns *)
    LClient 0 0;   (* l.160-161: joins worker 0 *)
    LClient 0 0 ]. (* l.159: end of workers_ *)

Definition backlog_pool : State :=
  after (falls_asleep ++ submits (plain 1) ++ submits (plain 2))
    (boot 1 None 1).

Definition backlog_pool_destroyed : State :=
  after destroy_with_backlog backlog_pool.

(** Caller 0 runs [waitUntilComplete(false, false, false)] from its second
    statement to its last on a pool of one worker whose queue is empty and
    whose flag is clear. *)
Definition drain_and_reopen : list label :=
  [ LClient 0 0;   (* l.129: the combination is legal *)
    LClient 0 0;   (* l.134: allowNewTasks_ = false *)
    LClient 0 0;   (* l.145: takes mt_ *)
    LClient 0 0;   (* l.146-149: queue empty, mt_ released *)
    LClient 0 0;   (* l.165: working_[0] is false *)
    LClient 0 0;   (* l.165: end of working_ *)
    LClient 0 0 ]. (* l.169: allowNewTasks_ = true *)

Definition idle_pool_draining : State :=
  after (falls_asleep ++ [LCall 0 (WaitUntilComplete false false false)])
    (boot 1 None 1).

Definition idle_pool_reopened : State :=
  after drain_and_reopen idle_pool_draining.

(** The only worker has taken the only task from the queue (l.204-206) and
    has not yet set its flag (l.209) when caller 0 runs
    [waitUntilComplete(false, false, false)] from beginning to end. *)
Definition drain_overtakes_worker : list label :=
  falls_asleep ++ submits (plain 1) ++
  [ LWorker 0;     (* l.197: the wait takes mt_ again *)
    LWorker 0;     (* l.200-206: front, pop, mt_ released *)
    LCall 0 (WaitUntilComplete false false false) ] ++
  drain_and_reopen.

(** ** Critical sections *)

(** The thread that a label moves. *)
Definition mover (l : label) : option owner :=
  match l with
  | LWorker w => Some (OWorker w)
  | LClient c _ => Some (OClient c)
  | _ => None
  end.

(** The thread [o] stands at a statement that the source executes with
    [mt_] held. *)
Definition in_critical (s : State) (o : owner) : bool :=
  match o with
  | OWorker w =>
      match workers_ s !! w with Some th => holds_w (wpc th) | None => false end
  | OClient c =>
      match callers s !! c with Some pc => holds_c pc | None => false end
  end.

(** Whoever holds [mt_] is inside a critical section: no thread keeps the
    mutex when it leaves the scope of its guard. *)
Definition held_by_thread (s : State) : Prop :=
  ∀ o, mt_ s = Some o → in_critical s o = true.

(** A worker that has left its loop has seen [terminate_] set. *)
Definition exit_ok (s : State) : Prop :=
  ∀ w th, workers_ s !! w = Some th → wpc th = WExited → terminate_ s = true.

(** ** The log *)

(** The texts the pool writes: the error of [addTask] on a closed pool,
    and the error of a worker whose task threw a [std::exception]. *)
Definition log_entry (s : State) (e : string) : Prop :=
  e = c_str addTask_error ∨
  ∃ w t what, (w, t) ∈ executed s ∧ body t = ThrowsStd what ∧
              e = c_str (worker_error w what).

(** A null [log_] stays null; a stream only grows, by such texts. *)
Definition log_grown (logStream : option (list string)) (s : State) : Prop :=
  match logStream with
  | None => log_ s = None
  | Some out =>
      ∃ extra, log_ s = Some (out ++ extra) ∧ Forall (log_entry s) extra
  end.

(** ** Waiting callers *)

(** What holds while a caller stands at [pc] inside a
    [waitUntilComplete(_, _, false)]: from the moment the queue was found
    or made empty up to l.169, [allowNewTasks_] is clear. *)
Definition sweeping_at (pc : client_pc) (s : State) : Prop :=
  match pc with
  | D_Entry _ _ false | D_WaitLock false | D_WaitCheck false
  | D_WaitSleep false | CIdle | CThrew => True
  | D_SetAllow a b false => a && b = false
  | D_AbLock false | D_AbLoop false | D_Poll _ | D_PollSleep | D_Open =>
      allowNewTasks_ s = false
  | _ => False
  end.

Definition sweeping (c : nat) (s : State) : Prop :=
  ∃ pc, callers s !! c = Some pc ∧ sweeping_at pc s.

(** The caller reads the busy flags or is about to reopen intake,
    l.165-169. *)
Definition polling (pc : client_pc) : bool :=
  match pc with D_Poll _ | D_PollSleep | D_Open => true | _ => false end.

(** No caller but [c] is inside a member function. *)
Definition others_idle (c : nat) (s : State) : Prop :=
  ∀ c' pc, callers s !! c' = Some pc → c' ≠ c → pc = CIdle ∨ pc = CThrew.

(** A thread executes its next statement: no call is started and no wait
    returns without a notification. *)
Definition continues (l : label) : bool :=
  match l with LWorker _ | LClient _ _ => true | _ => false end.

(** Caller [c] stands at the [join] of l.161 for worker [k], which is
    inside [cv_.wait]; nobody else is inside a member function. *)
Definition joining_sleeper (c k : nat) (s : State) : Prop :=
  callers s !! c = Some (D_Join k) ∧
  workers_ s !! k = Some {| wpc := WWaiting; joinable := true |} ∧
  others_idle c s.

(** ** Whole calls *)

(** A worker inside [cv_.wait], woken, returned from its loop, and
    joined. *)
Definition asleep : thread := {| wpc := WWaiting; joinable := true |}.
Definition woken : thread := {| wpc := WNotified; joinable := true |}.
Definition gone : thread := {| wpc := WExited; joinable := true |}.
Definition joined : thread := {| wpc := WExited; joinable := false |}.

(** Caller [c] runs [addTask(t)] from its first to its last statement,
    waking worker [w], which then takes the mutex again, takes the task
    and runs it. *)
Definition serves (c w : nat) (t : Task) : list label :=
  LCall c (AddTask t) :: replicate 5 (LClient c w) ++ replicate 4 (LWorker w).

(** Caller [c] runs [waitUntilComplete(a, false, false)] on a pool of
    [n] workers without anybody else moving: l.129, l.134, l.145, l.146-149,
    one read of l.165 per flag and one that ends the sweep, l.169. *)
Definition drains (c : nat) (a : bool) (n : nat) : list label :=
  LCall c (WaitUntilComplete a false false) :: replicate (n + 6) (LClient c 0).

(** The workers [k .. k+j-1], woken, each take the mutex again (l.197)
    and leave the loop (l.200-202). *)
Definition all_exit (k j : nat) : list label :=
  seq k j ≫= λ w, [LWorker w; LWorker w].

(** Caller [c] runs [waitUntilComplete(false, false, true)] on a pool of
    [n] workers: l.129-158, then every worker leaves, then one [join] per
    worker and the end of the loop of l.159. *)
Definition retires (c n : nat) : list label :=
  LCall c (WaitUntilComplete false false true) ::
  replicate 6 (LClient c 0) ++ all_exit 0 n ++ replicate (n + 1) (LClient c 0).

(** Worker [w], awake and alone, takes and runs [k] tasks: five
    statements each, l.193, l.195, l.200-206, l.209, l.210. *)
Definition works_off (w k : nat) : list label := replicate (5 * k) (LWorker w).

(** Caller [c] runs [waitUntilComplete(false, true, false)] on a pool of
    [n] workers with [k] tasks queued, without anybody else moving:
    l.129, l.134, l.138, the loop of l.139-140, the sweep of l.165 and
    l.169. *)
Definition abandons (c n k : nat) : list label :=
  LCall c (WaitUntilComplete false true false) ::
  replicate 3 (LClient c 0) ++ replicate (S k) (LClient c 0) ++
  replicate (n + 2) (LClient c 0).

(** ** More scenarios *)

(** Two tasks are queued in a pool of one whose worker has not moved
    yet. *)
Definition unserved_backlog : State :=
  after (submits (plain 1) ++ submits (plain 2)) (boot 1 None 1).

(** Worker 0 of a pool of one has taken the mutex at l.193. *)
Definition worker_in_section : State := after [LWorker 0] (boot 1 None 1).

(** Caller 0 stands at l.115 with the mutex held, about to push. *)
Definition about_to_push : State :=
  after [ LCall 0 (AddTask (plain 1)); LClient 0 0; LClient 0 0; LClient 0 0 ]
    (boot 1 None 1).

(** In a pool of two, worker 0 has found the queue empty and cleared its
    flag (l.196) but is not yet inside [cv_.wait] when caller 0, running
    [waitUntilComplete(false, false, true)], sets [terminate_] and
    notifies (l.157-158); then worker 0 waits. *)
Definition lost_wakeup : list label :=
  [ LCall 0 (WaitUntilComplete false false true);
    LClient 0 0;   (* l.129: the combination is legal *)
    LClient 0 0;   (* l.134 *)
    LClient 0 0;   (* l.145: takes mt_ *)
    LClient 0 0;   (* l.146-149: queue empty, mt_ released *)
    LWorker 0;     (* l.193: takes mt_ *)
    LWorker 0;     (* l.195-196: queue empty, working_[0] = false *)
    LClient 0 0;   (* l.157: terminate_ = true *)
    LClient 0 0;   (* l.158: notify_all, nobody waits *)
    LWorker 0 ].   (* l.197: cv_.wait releases mt_ and blocks *)

Definition sleeper_joined : State := after lost_wakeup (boot 2 None 1).

(** Worker 1 goes to sleep as well. *)
Definition second_falls_asleep : list label :=
  [ LWorker 1; LWorker 1; LWorker 1 ].

(** The pool of one sleeping worker on which caller 0 has just called
    [waitUntilComplete(true, false, false)]. *)
Definition idle_pool_waiting : State :=
  after (falls_asleep ++ [LCall 0 (WaitUntilComplete true false false)])
    (boot 1 None 1).

(** The first four statements of the call: l.129, l.134, l.145,
    l.146-149. *)
Definition finds_queue_empty : list label :=
  [ LClient 0 0; LClient 0 0; LClient 0 0; LClient 0 0 ].

(** A pool of one whose worker sleeps. *)
Definition sleeping_pool : State := after falls_asleep (boot 1 None 1).

(** A rejected [addTask] on a retired pool. *)
Definition rejected_submit : list label :=
  [ LCall 0 (AddTask (plain 1)); LClient 0 0 ].

(** A pool without threads that is given one task. *)
Definition threadless_pool : State := after (submits (plain 1)) (boot 0 None 1).

(** A message with a NUL in the middle. *)
Definition cut_message : string :=
  String "a"%char (String NUL (String "b"%char EmptyString)).

(** The workers of a fresh pool of one move before any call: worker 0
    waits, wakes up spuriously and takes the mutex again. *)
Definition early_workers : list label :=
  falls_asleep ++ [LSpurious 0; LWorker 0].

(** * examples/ThreadPool.cpp *)

(** The range of [int]. *)
Definition INT_MIN : Z := (- 2 ^ 31)%Z.
Definition INT_MAX : Z := (2 ^ 31 - 1)%Z.

(** [+=] on [uint64_t]. *)
Definition uint64_add (a b : Z) : Z := ((a + b) mod 2 ^ 64)%Z.

(** The loop of [fib], l.18-21, from the test [i < n] on; [None] when
    [fuel] tests do not reach the end of the loop.  [i] stays below [n],
    so [i++] does not overflow. *)
Fixpoint fib_loop (fuel : nat) (n i prev curr : Z) : option Z :=
  match fuel with
  | O => None
  | S fuel' =>
      if (i <? n)%Z then
        let (prev, curr) := (curr, prev) in      (* std::swap(prev, curr) *)
        let curr := uint64_add curr prev in      (* curr += prev *)
        fib_loop fuel' n (i + 1) prev curr
      else Some curr
  end.

(** [fib], l.14-23. *)
Definition fib (n : Z) : option Z :=
  if (n =? 0)%Z then Some 0%Z
  else fib_loop (Z.to_nat n + 1) n 1 0 1.

(** The Fibonacci numbers. *)
Fixpoint fibonacci (k : nat) : Z :=
  match k with
  | O => 0
  | S k' => match k' with O => 1 | S k'' => fibonacci k' + fibonacci k'' end
  end%Z.

(** * Optional.h *)

(** What a call can do: return, throw, or run into undefined behaviour. *)
Inductive ans (A : Type) : Type :=
| Value (a : A)
| Exception
| UndefinedBehaviour.
Arguments Value {A} a.
Arguments Exception {A}.
Arguments UndefinedBehaviour {A}.

(** An [Optional<T>] object, by its member [t_] (l.56): a
    [std::unique_ptr<T>] that is null or holds the address of the [T] it
    owns.  [Dead] is an object whose lifetime has ended. *)
Inductive object :=
| Dead
| Alive (t_ : option nat).

(** The free store, holding the [T] objects made by [std::make_unique]
    (the cell of a deleted object stays, empty, so that no address is used
    twice), and the [Optional<T>] objects of a program. *)
Record Objects (T : Type) := mkObjects {
  store : list (option T);
  objects : list object
}.
Arguments mkObjects {T} store objects.
Arguments store {T} o.
Arguments objects {T} o.

(** The operations of a program on its [Copyable<T>] or [NonCopyable<T>]
    objects; an object is named by its position in [objects]. *)
Inductive operation (T : Type) :=
| Construct                        (* Copyable() / NonCopyable(), l.72, l.124 *)
| ConstructFrom (v : T)               (* the constructor of l.91 / l.144; [v] is T(args...) *)
| CopyConstruct (other : nat)         (* l.76 / l.129 *)
| CopyAssign (this other : nat)  (* l.79 / l.132 *)
| MoveConstruct (other : nat)         (* l.85 / l.138 *)
| MoveAssign (this other : nat)  (* l.86 / l.139 *)
| CallRelease (this : nat)           (* l.39 *)
| Destruct (this : nat).          (* the implicit destructor *)
Arguments Construct {T}.
Arguments ConstructFrom {T} v.
Arguments CopyConstruct {T} other.
Arguments CopyAssign {T} this other.
Arguments MoveConstruct {T} other.
Arguments MoveAssign {T} this other.
Arguments CallRelease {T} this.
Arguments Destruct {T} this.

(** The two classes derived from [Optional<T>]. *)
Inductive wrapper := IsCopyable | IsNonCopyable.

Section Optional.
Context {T : Type}.

(** The copy constructor of [T]: the copy, or [None] when it throws. *)
Context (copy_T : T → option T).

(** The member [t_] of object [i], when the object is alive. *)
Definition member (os : list object) (i : nat) : option (option nat) :=
  match os !! i with Some (Alive p) => Some p | _ => None end.

Definition t_ (w : Objects T) (i : nat) : option (option nat) :=
  member (objects w) i.

Definition set_t (i : nat) (p : option nat) (w : Objects T) : Objects T :=
  mkObjects (store w) (<[i := Alive p]> (objects w)).

(** [std::make_unique<T>]: a new object at a new address. *)
Definition make_unique (v : T) (h : list (option T)) : nat * list (option T) :=
  (length h, h ++ [Some v]).

(** What a [unique_ptr] does with the object it owns when it is destroyed
    or assigned to. *)
Definition delete (p : option nat) (h : list (option T)) : list (option T) :=
  match p with Some l => <[l := None]> h | None => h end.

(** [*p] on a [unique_ptr]: undefined when [p] is null. *)
Definition star (p : option nat) (h : list (option T)) : ans T :=
  match p with
  | None => UndefinedBehaviour
  | Some l =>
      match h !! l with
      | Some (Some v) => Value v
      | _ => UndefinedBehaviour
      end
  end.

(** [operator bool], l.36; [operator->], l.37; [operator*], l.38. *)
Definition operator_bool (w : Objects T) (this : nat) : ans bool :=
  match t_ w this with
  | Some p => Value (match p with Some _ => true | None => false end)
  | None => UndefinedBehaviour
  end.

Definition operator_arrow (w : Objects T) (this : nat) : ans (option nat) :=
  match t_ w this with Some p => Value p | None => UndefinedBehaviour end.

Definition operator_star (w : Objects T) (this : nat) : ans T :=
  match t_ w this with
  | Some p => star p (store w)
  | None => UndefinedBehaviour
  end.

(** [Optional()], l.48: [t_()]. *)
Definition Optional_default (w : Objects T) : Objects T :=
  mkObjects (store w) (objects w ++ [Alive None]).

(** [Optional(std::unique_ptr<T> t)], l.52: [t_(std::move(t))]. *)
Definition Optional_from_ptr (p : option nat) (w : Objects T) : Objects T :=
  mkObjects (store w) (objects w ++ [Alive p]).

(** [Optional(const ConstructFromParameterList&, Args... args)], l.44:
    [t_(std::make_unique<T>(args...))]. *)
Definition Optional_from_args (v : T) (w : Objects T) : Objects T :=
  let (l, h) := make_unique v (store w) in
  Optional_from_ptr (Some l) (mkObjects h (objects w)).

(** [release()], l.39: [t_.release()], whose result is dropped. *)
Definition release (this : nat) (w : Objects T) : ans (Objects T) :=
  match t_ w this with
  | Some _ => Value (set_t this None w)
  | None => UndefinedBehaviour
  end.

(** [std::make_unique<T>( *(other.t_))], l.77 and l.80. *)
Definition clone (p : option nat) (h : list (option T))
  : ans (nat * list (option T)) :=
  match star p h with
  | Value v =>
      match copy_T v with
      | Some v' => Value (make_unique v' h)
      | None => Exception
      end
  | Exception => Exception
  | UndefinedBehaviour => UndefinedBehaviour
  end.

(** [Copyable(const Copyable& other)], l.76-77. *)
Definition Copyable_copy (other : nat) (w : Objects T) : ans (Objects T) :=
  match t_ w other with
  | Some p =>
      match clone p (store w) with
      | Value (l, h) =>
          Value (Optional_from_ptr (Some l) (mkObjects h (objects w)))
      | Exception => Exception
      | UndefinedBehaviour => UndefinedBehaviour
      end
  | None => UndefinedBehaviour
  end.

(** [Copyable::operator=(const Copyable<T>& other)], l.79-82: the new
    object is made first, then [t_] is assigned and deletes the old one. *)
Definition Copyable_assign (this other : nat) (w : Objects T)
  : ans (Objects T) :=
  match t_ w this, t_ w other with
  | Some old, Some p =>
      match clone p (store w) with
      | Value (l, h) =>
          Value (mkObjects (delete old h) (<[this := Alive (Some l)]> (objects w)))
      | Exception => Exception
      | UndefinedBehaviour => UndefinedBehaviour
      end
  | _, _ => UndefinedBehaviour
  end.

(** [NonCopyable(const NonCopyable& other)], l.129-130: [Optional<T>()]. *)
Definition NonCopyable_copy (other : nat) (w : Objects T) : ans (Objects T) :=
  match t_ w other with
  | Some _ => Value (Optional_default w)
  | None => UndefinedBehaviour
  end.

(** [NonCopyable::operator=(const NonCopyable<T>& o)], l.132-135:
    [t_.release()]. *)
Definition NonCopyable_assign (this other : nat) (w : Objects T)
  : ans (Objects T) :=
  match t_ w this, t_ w other with
  | Some _, Some _ => Value (set_t this None w)
  | _, _ => UndefinedBehaviour
  end.

(** The defaulted move constructor, l.85 and l.138: the new object takes
    the pointer, [other] is left null. *)
Definition move_ctor (other : nat) (w : Objects T) : ans (Objects T) :=
  match t_ w other with
  | Some p => Value (Optional_from_ptr p (set_t other None w))
  | None => UndefinedBehaviour
  end.

(** The defaulted move assignment, l.86 and l.139:
    [t_.reset(other.t_.release())]. *)
Definition move_assign (this other : nat) (w : Objects T) : ans (Objects T) :=
  match t_ w this, t_ w other with
  | Some _, Some p =>
      let w1 := set_t other None w in
      match t_ w1 this with
      | Some old =>
          Value (mkObjects (delete old (store w1))
                   (<[this := Alive p]> (objects w1)))
      | None => UndefinedBehaviour
      end
  | _, _ => UndefinedBehaviour
  end.

(** The implicit destructor: [~unique_ptr] deletes what [t_] owns. *)
Definition destroy (this : nat) (w : Objects T) : ans (Objects T) :=
  match t_ w this with
  | Some p => Value (mkObjects (delete p (store w)) (<[this := Dead]> (objects w)))
  | None => UndefinedBehaviour
  end.

(** One operation on objects that are all [Copyable<T>], or all
    [NonCopyable<T>]. *)
Definition exec (k : wrapper) (o : operation T) (w : Objects T) : ans (Objects T) :=
  match o with
  | Construct => Value (Optional_default w)
  | ConstructFrom v => Value (Optional_from_args v w)
  | CopyConstruct other =>
      match k with
      | IsCopyable => Copyable_copy other w
      | IsNonCopyable => NonCopyable_copy other w
      end
  | CopyAssign this other =>
      match k with
      | IsCopyable => Copyable_assign this other w
      | IsNonCopyable => NonCopyable_assign this other w
      end
  | MoveConstruct other => move_ctor other w
  | MoveAssign this other => move_assign this other w
  | CallRelease this => release this w
  | Destruct this => destroy this w
  end.

Fixpoint execs (k : wrapper) (os : list (operation T)) (w : Objects T)
  : ans (Objects T) :=
  match os with
  | [] => Value w
  | o :: os' =>
      match exec k o w with
      | Value w' => execs k os' w'
      | r => r
      end
  end.

(** No pointer dangles and no two objects own the same [T]. *)
Definition owned (w : Objects T) : Prop :=
  (∀ i l, t_ w i = Some (Some l) → ∃ v, store w !! l = Some (Some v)) ∧
  (∀ i j l, t_ w i = Some (Some l) → t_ w j = Some (Some l) → i = j).

(** Every [T] on the free store is owned by an object. *)
Definition leak_free (w : Objects T) : Prop :=
  ∀ l v, store w !! l = Some (Some v) → ∃ i, t_ w i = Some (Some l).

(** The [T] at address [l] is on the free store and no object owns it. *)
Definition leaked (l : nat) (w : Objects T) : Prop :=
  (∃ v, store w !! l = Some (Some v)) ∧ ∀ i, t_ w i ≠ Some (Some l).

(** The operations that delete what they take out of an object's hands:
    all but [release()], and but the copy assignment of [NonCopyable]. *)
Definition tidy (k : wrapper) (o : operation T) : bool :=
  match o with
  | CallRelease _ => false
  | CopyAssign _ _ =>
      match k with IsCopyable => true | IsNonCopyable => false end
  | _ => true
  end.

End Optional.

(** A program that has no objects yet. *)
Definition no_objects {T : Type} : Objects T := mkObjects [] [].

(** A [T] whose copy constructor works, as [Copy] of [source/Optional.cpp],
    and one whose copy constructor throws, as [NonCopy]. *)
Definition copies : nat → option nat := Some.
Definition throws : nat → option nat := λ _, None.

(** One object that owns a [T], and the same after [release()]. *)
Definition one_object : Objects nat := Optional_from_args 7 no_objects.

Definition one_released : Objects nat :=
  match release 0 one_object with Value w => w | _ => one_object end.

(** An object that owns a [T] and one that owns nothing. *)
Definition full_and_empty : Objects nat := Optional_default one_object.

(** A program on [Copyable] objects: make one, copy it, make an empty
    one, assign the copy to it, move the first away, destroy the copy. *)
Definition copy_program : list (operation nat) :=
  [ ConstructFrom 7; CopyConstruct 0; Construct; CopyAssign 2 1; MoveConstruct 0; Destruct 1 ].

Definition copy_program_done : Objects nat :=
  match execs copies IsCopyable copy_program no_objects with
  | Value w => w
  | _ => no_objects
  end.

(** ** Scenarios of the failures *)




(** A pool of one is destroyed by caller 0 before its worker has reached
    [cv_.wait]: the destructor has issued [notify_all] when the worker
    finds the queue empty and waits. *)
Definition destroy_fresh_pool : list label :=
  [ LCall 0 Destroy;
    LClient 0 0;   (* l.129: the combination is legal *)
    LClient 0 0;   (* l.134 *)
    LClient 0 0;   (* l.138: takes mt_ *)
    LClient 0 0;   (* l.139: queue empty, mt_ released *)
    LClient 0 0;   (* l.157: terminate_ = true *)
    LClient 0 0;   (* l.158: notify_all, nobody waits *)
    LWorker 0;     (* l.193: takes mt_ *)
    LWorker 0;     (* l.195-196: queue empty, working_[0] = false *)
    LWorker 0 ].   (* l.197: cv_.wait releases mt_ and blocks *)

(** The pool is destroyed by caller 0 while two tasks are queued and its
    only worker has been woken by the first [addTask]; the worker takes
    the mutex again after the destructor has emptied the queue and before
    it has set [terminate_]. *)
Definition destroy_meets_woken_worker : list label :=
  [ LCall 0 Destroy;
    LClient 0 0;   (* l.129: the combination is legal *)
    LClient 0 0;   (* l.134 *)
    LClient 0 0;   (* l.138: takes mt_ *)
    LClient 0 0;   (* l.139-140: pops the first task *)
    LClient 0 0;   (* l.139-140: pops the second task *)
    LClient 0 0;   (* l.139: queue empty, mt_ released *)
    LWorker 0 ].   (* l.197: the wait of worker 0 takes mt_ again *)

(** Where a worker can stand before the first task is pushed, as long as
    no wait has returned. *)
Definition early (th : thread) : Prop :=
  match wpc th with
  | WTop | WLocked | WAboutToWait | WWaiting => True
  | _ => False
  end.

Definition untouched (s : State) : Prop :=
  tasks_ s = [] ∧ length (working_ s) = length (workers_ s) ∧
  Forall early (workers_ s).

(** After [early_workers], worker 0 executes its next statement. *)
Definition early_spurious_wakeup : list label := early_workers ++ [LWorker 0].

(* ================================================================= *)
(** * Properties *)

(** ** Schedules *)

Lemma run_app tr1 tr2 s :
  run (tr1 ++ tr2) s = match run tr1 s with Ok s' => run tr2 s' | r => r end.
Proof.
  revert s. induction tr1 as [|l tr1 IH]; intros s; simpl; [done|].
  destruct (step l s); auto.
Qed.

Lemma run_snoc tr l s s' :
  run (tr ++ [l]) s = Ok s' ↔ ∃ s1, run tr s = Ok s1 ∧ step l s1 = Ok s'.
Proof.
  rewrite run_app. split.
  - destruct (run tr s) as [s1| | |] eqn:E; try done. simpl.
    destruct (step l s1) as [s2| | |] eqn:E2; try done.
    intros [= <-]. eauto.
  - intros (s1 & -> & H). simpl. by rewrite H.
Qed.

(** A property of the start state that every transition allowed by [Q]
    preserves holds after every schedule made of such transitions. *)
Lemma run_preserves (Q : label → Prop) (P : State → Prop) :
  (∀ l s s', Q l → P s → step l s = Ok s' → P s') →
  ∀ tr s s', Forall Q tr → P s → run tr s = Ok s' → P s'.
Proof.
  intros Hstep tr. induction tr as [|l tr IH]; intros s s' HQ HP Hrun; simpl in *.
  - by simplify_eq.
  - inversion_clear HQ as [|?? Hl Htr].
    destruct (step l s) as [s1| | |] eqn:E; try done. eauto.
Qed.

Lemma reachable_ind (P : State → Prop) n logStream m :
  P (boot n logStream m) →
  (∀ l s s', P s → step l s = Ok s' → P s') →
  ∀ s, reachable n logStream m s → P s.
Proof.
  intros H0 Hstep s [tr Hrun].
  eapply (run_preserves (λ _, True)); [by eauto | | exact H0 | exact Hrun].
  by apply Forall_true.
Qed.

Lemma reachable_boot n logStream m : reachable n logStream m (boot n logStream m).
Proof. by exists []. Qed.

Lemma reachable_run n logStream m tr s s' :
  reachable n logStream m s → run tr s = Ok s' → reachable n logStream m s'.
Proof.
  intros [tr0 H0] H. exists (tr0 ++ tr). by rewrite run_app, H0.
Qed.

Lemma reachable_step n logStream m l s s' :
  reachable n logStream m s → step l s = Ok s' → reachable n logStream m s'.
Proof.
  intros Hs H. apply (reachable_run _ _ _ [l] s); [done|]. simpl. by rewrite H.
Qed.

Lemma run_after tr s0 : completes tr s0 = true → run tr s0 = Ok (after tr s0).
Proof. unfold completes, after. by destruct (run tr s0). Qed.

Lemma reachable_after n logStream m tr :
  completes tr (boot n logStream m) = true →
  reachable n logStream m (after tr (boot n logStream m)).
Proof. intros H. exists tr. by apply run_after. Qed.

(** Case analysis on the transition that led from one state to the next. *)
Ltac step_cases H :=
  unfold step, worker_step, spurious_step, call_step, client_step, lock,
    notify_one in H;
  repeat first
    [ match type of H with
      | context [if in_drain ?pc then _ else _] =>
          destruct pc; cbn [in_drain addTask waitUntilComplete] in H;
          unfold lock, notify_one in H
      end
    | case_match ];
  simplify_eq.

(** The texts of the messages play no role in the proofs. *)
Arguments worker_error : simpl never.
Arguments addTask_error : simpl never.
Arguments c_str : simpl never.

(** ** Construction *)

Lemma spawn_loop_spec k s :
  spawn_loop k s =
  set_workers (workers_ s ++ replicate k fresh_thread)
    (set_working (working_ s ++ replicate k false) s).
Proof.
  revert s. induction k as [|k IH]; intros s; simpl.
  - destruct s; unfold set_workers, set_working; simpl. by rewrite !app_nil_r.
  - rewrite IH. unfold spawn, set_workers, set_working; simpl.
    by rewrite <- !app_assoc.
Qed.

Lemma constructed_spec n logStream :
  constructed n logStream =
  mkState logStream (replicate n fresh_thread) (replicate n false) [] None
    true false [] [] [] [].
Proof. unfold constructed. by rewrite spawn_loop_spec. Qed.




Lemma boot_spec n logStream m :
  boot n logStream m =
  mkState logStream (replicate n fresh_thread) (replicate n false) [] None
    true false (replicate m CIdle) [] [] [].
Proof. unfold boot. by rewrite constructed_spec. Qed.

(** The vectors never change their sizes. *)
Lemma step_lengths l s s' :
  step l s = Ok s' →
  length (workers_ s') = length (workers_ s) ∧
  length (working_ s') = length (working_ s) ∧
  length (callers s') = length (callers s).
Proof.
  intros H. step_cases H; simpl; unfold logMessage;
    repeat case_match; simpl; rewrite ?length_insert, ?length_fmap; done.
Qed.

Lemma reachable_lengths n logStream m s :
  reachable n logStream m s →
  length (workers_ s) = n ∧ length (working_ s) = n ∧ length (callers s) = m.
Proof.
  revert s. apply reachable_ind.
  - rewrite boot_spec; simpl. by rewrite !length_replicate.
  - intros l s1 s2 (?&?&?) Hstep. apply step_lengths in Hstep as (?&?&?). lia.
Qed.




(** The worker threads start running while the constructor is still at
    work.  In every run of theirs before the first call of a member
    function that does not end in undefined behaviour, the pool stays as
    constructed: they find the queue empty and clear flags that are
    clear. *)
Lemma fresh_pool_unchanged n logStream m tr s :
  Forall (λ l, worker_label l = true) tr →
  run tr (boot n logStream m) = Ok s →
  working_ s = replicate n false ∧ allowNewTasks_ s = true ∧
  terminate_ s = false ∧ tasks_ s = [] ∧ pushed s = [].
Proof.
  intros HQ Hrun.
  cut ((working_ s = replicate n false ∧ allowNewTasks_ s = true ∧
        terminate_ s = false ∧ tasks_ s = [] ∧ pushed s = []) ∧
       Forall (λ th, held th = []) (workers_ s)); [by intros [? _]|].
  eapply (run_preserves (λ l, worker_label l = true)
    (λ x, (working_ x = replicate n false ∧ allowNewTasks_ x = true ∧
           terminate_ x = false ∧ tasks_ x = [] ∧ pushed x = []) ∧
          Forall (λ th, held th = []) (workers_ x)));
    [|exact HQ| |exact Hrun].
  - intros l s1 s2 Hl ((Hw & Ha & Ht & Hq & Hp) & Hh) H.
    step_cases H; unfold logMessage in *; repeat case_match;
      simplify_eq/=; try done.
    all: try (exfalso;
              match goal with
              | E : workers_ _ !! _ = Some ?th, P : wpc ?th = _ |- _ =>
                  eapply Forall_lookup_1 in Hh; [|exact E];
                  unfold held in Hh; by rewrite P in Hh
              end).
    all: split; [split_and?; try done; by rewrite Hw, insert_replicate|].
    all: apply Forall_insert; [done|]; unfold held; simpl; done.
  - rewrite boot_spec; simpl. split; [done|].
    apply Forall_replicate. done.
Qed.

(** C1: [waitUntilComplete(true, abandonTasks, terminatePool)] with one of
    the two other arguments set throws at its first statement; the only
    thing that changes is that the caller has the exception in hand. *)
Theorem C1_invalid_combination_throws (s : State) (c pick : nat)
    (abandonTasks terminatePool : bool) :
  callers s !! c = Some CIdle ∨ callers s !! c = Some CThrew →
  abandonTasks = true ∨ terminatePool = true →
  let s' := at_pc c CThrew s in
  run [LCall c (WaitUntilComplete true abandonTasks terminatePool);
       LClient c pick] s = Ok s' ∧
  callers s' !! c = Some CThrew ∧
  allowNewTasks_ s' = allowNewTasks_ s ∧
  terminate_ s' = terminate_ s ∧
  tasks_ s' = tasks_ s ∧
  workers_ s' = workers_ s ∧
  working_ s' = working_ s ∧
  mt_ s' = mt_ s ∧
  log_ s' = log_ s ∧
  pushed s' = pushed s ∧
  popped s' = popped s ∧
  executed s' = executed s.
Proof.
  intros Hc Hflags. simpl.
  assert (c < length (callers s))
    by (destruct Hc as [Hc|Hc]; by eapply lookup_lt_Some).
  assert (call_step c (WaitUntilComplete true abandonTasks terminatePool) s
          = Ok (at_pc c (D_Entry true abandonTasks terminatePool) s)) as ->
    by (unfold call_step; by destruct Hc as [-> | ->]).
  unfold client_step. simpl. rewrite list_lookup_insert_eq by done. simpl.
  replace (abandonTasks || terminatePool) with true
    by (symmetry; destruct Hflags; subst; [done | apply orb_true_r]).
  unfold at_pc; simpl. rewrite list_insert_insert_eq.
  rewrite list_lookup_insert_eq by done. done.
Qed.

Lemma C1_invalid_combination_throws_witness :
  let s := boot 2 None 1 in
  run [LCall 0 (WaitUntilComplete true true false); LClient 0 0] s
    = Ok (at_pc 0 CThrew s) ∧
  run [LCall 0 (WaitUntilComplete true false true); LClient 0 0] s
    = Ok (at_pc 0 CThrew s).
Proof.
  split.
  - apply (C1_invalid_combination_throws (boot 2 None 1) 0 0 true false);
      [left; reflexivity | by left].
  - apply (C1_invalid_combination_throws (boot 2 None 1) 0 0 false true);
      [left; reflexivity | by right].
Defined.

(** ** The busy flags *)

(** Lookups in the vectors after a transition. *)
Ltac lookup_cases :=
  repeat match goal with
  | H : <[_ := _]> _ !! _ = Some _ |- _ =>
      apply list_lookup_insert_Some in H as [(? & ? & ?) | (? & H)]
  | H : (_ <$> _) !! _ = Some _ |- _ =>
      rewrite list_lookup_fmap in H;
      let th := fresh "th" in let E := fresh "E" in
      destruct (_ !! _) as [th|] eqn:E in H; simplify_eq/=
  end; simplify_eq/=.

Lemma flags_ok_step l s s' : flags_ok s → step l s = Ok s' → flags_ok s'.
Proof.
  intros Hinv H.
  step_cases H; intros wx thx Hl; unfold logMessage in *;
  repeat case_match; simpl in *; lookup_cases.
  all: try (by apply Hinv).
  all: unfold flag_ok; simpl.
  all: try done.
  all: try (rewrite list_lookup_insert_eq by done; done).
  all: try (rewrite list_lookup_insert_ne by done).
  all: match goal with
       | H : workers_ _ !! _ = Some _ |- _ =>
           let F := fresh in
           pose proof (Hinv _ _ H) as F; unfold flag_ok, waiting, wake in *;
           repeat case_match; simplify_eq/=; done
       end.
Qed.

Lemma reachable_flags_ok n logStream m s :
  reachable n logStream m s → flags_ok s.
Proof.
  revert s. apply reachable_ind; [|by eauto using flags_ok_step].
  rewrite boot_spec. intros w th Hl; simpl in Hl.
  apply lookup_replicate in Hl as [-> _]. done.
Qed.

(** The only statement that clears a set flag is l.196, run by the flag's
    own worker after it found the queue empty. *)
Lemma flag_cleared_at_196 l s s' w :
  step l s = Ok s' →
  working_ s !! w = Some true → working_ s' !! w = Some false →
  l = LWorker w ∧ tasks_ s = [] ∧
  ∃ th, workers_ s !! w = Some th ∧ wpc th = WLocked.
Proof.
  intros H Ht Hf.
  step_cases H; unfold logMessage in *; repeat case_match;
    simpl in *; simplify_eq; lookup_cases; eauto.
Qed.

(** C8, as the source has it: the busy flag of a worker is set whenever the
    worker is inside a task body and clear whenever it is inside
    [cv_.wait]; a set flag is cleared by nothing but l.196, which its own
    worker reaches only after finding the queue empty, so the flag stays
    set from one task body to the next while tasks are queued. *)
Theorem C8_busy_flag (n : nat) (logStream : option (list string)) (m : nat)
    (s : State) (w : nat) (th : thread) :
  reachable n logStream m s →
  workers_ s !! w = Some th →
  (∀ t, wpc th = WRunning t → working_ s !! w = Some true) ∧
  (wpc th = WAboutToWait ∨ wpc th = WWaiting ∨ wpc th = WNotified →
   working_ s !! w = Some false) ∧
  (∀ l s', step l s = Ok s' →
     working_ s !! w = Some true → working_ s' !! w = Some false →
     l = LWorker w ∧ tasks_ s = [] ∧ wpc th = WLocked).
Proof.
  intros Hr Hl. pose proof (reachable_flags_ok _ _ _ _ Hr w th Hl) as F.
  unfold flag_ok in F. split_and!.
  - intros t E. by rewrite E in F.
  - intros [E | [E | E]]; by rewrite E in F.
  - intros l s' Hstep Ht Hf.
    destruct (flag_cleared_at_196 _ _ _ _ Hstep Ht Hf) as (-> & ? & th' & ? & ?).
    by simplify_eq.
Qed.

Lemma C8_busy_flag_witness :
  let s := after (falls_asleep ++ submits (plain 1) ++ [LWorker 0; LWorker 0; LWorker 0])
             (boot 1 None 1) in
  reachable 1 None 1 s ∧
  workers_ s !! 0 = Some {| wpc := WRunning (plain 1); joinable := true |} ∧
  working_ s !! 0 = Some true.
Proof.
  assert (R : reachable 1 None 1
    (after (falls_asleep ++ submits (plain 1) ++ [LWorker 0; LWorker 0; LWorker 0])
       (boot 1 None 1))) by (apply reachable_after; vm_compute; reflexivity).
  split_and!; [exact R | reflexivity |].
  eapply (C8_busy_flag 1 None 1 _ 0 _ R); reflexivity.
Defined.

(** The claim C8 fails as stated: after the first of two queued tasks has
    returned, worker 0 stands at the top of its loop, outside any task body,
    and its busy flag is still set. *)
Lemma C8_flag_set_between_tasks :
  let s := after first_of_two (boot 1 None 1) in
  run first_of_two (boot 1 None 1) = Ok s ∧
  workers_ s !! 0 = Some {| wpc := WTop; joinable := true |} ∧
  executed s = [(0, plain 1)] ∧
  tasks_ s = [plain 2] ∧
  working_ s !! 0 = Some true.
Proof. vm_compute. done. Qed.

(** ** The worker loop *)

(** What l.200-205 do with the mutex held: leave the loop exactly when
    [terminate_] is set and the queue is empty, take exactly the front task
    when the queue is not empty, and call [front()] on an empty queue in
    the remaining case. *)
Lemma check_term_cases (w : nat) (s : State) (th : thread) :
  workers_ s !! w = Some th → wpc th = WCheckTerm →
  match tasks_ s with
  | [] =>
      if terminate_ s then step (LWorker w) s = Ok (goto w th WExited (unlock s))
      else step (LWorker w) s = Undefined
  | t :: q =>
      step (LWorker w) s =
      Ok (goto w th (WHasTask t) (unlock (note_pop t true (set_tasks q s))))
  end.
Proof.
  intros Hl Hpc. simpl. unfold worker_step. rewrite Hl, Hpc.
  destruct (tasks_ s), (terminate_ s); done.
Qed.

(** C5 fails on the source.  Without any spurious wake-up, worker 0 is
    brought to l.204 with the mutex held, [terminate_] clear and the queue
    empty, so that its next statement is [front()] on an empty
    [std::queue]: in a pool of one worker that is given one task, when the
    [notify_one] of [addTask] comes after the worker has run the task and
    gone to sleep ([late_notify]); in a pool of one worker that is given one
    task and then told to abandon its queue ([stale_wakeup]); and in a pool
    of two workers that is given one task ([stolen_wakeup]). *)
Theorem C5_front_on_empty_queue :
  (forallb genuine late_notify = true ∧
   let s := after late_notify (boot 1 None 1) in
   run late_notify (boot 1 None 1) = Ok s ∧
   workers_ s !! 0 = Some {| wpc := WCheckTerm; joinable := true |} ∧
   mt_ s = Some (OWorker 0) ∧ terminate_ s = false ∧ tasks_ s = [] ∧
   step (LWorker 0) s = Undefined) ∧
  (forallb genuine stale_wakeup = true ∧
   let s := after stale_wakeup (boot 1 None 1) in
   run stale_wakeup (boot 1 None 1) = Ok s ∧
   workers_ s !! 0 = Some {| wpc := WCheckTerm; joinable := true |} ∧
   mt_ s = Some (OWorker 0) ∧ terminate_ s = false ∧ tasks_ s = [] ∧
   step (LWorker 0) s = Undefined) ∧
  (forallb genuine stolen_wakeup = true ∧
   let s := after stolen_wakeup (boot 2 None 1) in
   run stolen_wakeup (boot 2 None 1) = Ok s ∧
   workers_ s !! 0 = Some {| wpc := WCheckTerm; joinable := true |} ∧
   mt_ s = Some (OWorker 0) ∧ terminate_ s = false ∧ tasks_ s = [] ∧
   step (LWorker 0) s = Undefined).
Proof. vm_compute. done. Qed.

(** A worker that holds a dequeued task runs its body with its next two
    statements, whatever the other threads do in between being of no
    concern to these two. *)
Lemma dequeued_task_runs (n : nat) logStream (m : nat) (s : State) (w : nat)
    (th : thread) (t : Task) :
  reachable n logStream m s →
  workers_ s !! w = Some th → wpc th = WHasTask t → body t ≠ ThrowsOther →
  ∃ s', run [LWorker w; LWorker w] s = Ok s' ∧
        executed s' = executed s ++ [(w, t)] ∧
        workers_ s' !! w = Some {| wpc := WTop; joinable := joinable th |}.
Proof.
  intros Hr Hl Hpc Hbody.
  destruct (reachable_lengths _ _ _ _ Hr) as (Hn & Hn' & _).
  assert (w < length (workers_ s)) by (by eapply lookup_lt_Some).
  simpl. unfold worker_step at 1. rewrite Hl, Hpc.
  rewrite decide_True by lia.
  unfold worker_step, goto; simpl.
  rewrite list_lookup_insert_eq by done; simpl.
  destruct (body t) eqn:E; [| |done]; eexists; (split; [reflexivity|]);
    unfold logMessage; simpl; repeat case_match; simpl;
    rewrite list_insert_insert_eq, list_lookup_insert_eq by done; done.
Qed.

(** C3, as the source has it: a task body that throws an exception derived
    from [std::exception] is caught at l.211; the message built from the
    worker's id and [what()] is handed to [logMessage], which appends it to
    the log stream when there is one; nothing is rethrown, the worker is
    back at the top of its loop and no other member of the pool has
    changed; every task the worker holds later on is run. *)
Theorem C3_std_exception_contained (n : nat) (logStream : option (list string))
    (m : nat) (s : State) (w : nat) (th : thread) (t : Task) (what : string) :
  reachable n logStream m s →
  workers_ s !! w = Some th → wpc th = WRunning t → body t = ThrowsStd what →
  ∃ s',
    step (LWorker w) s = Ok s' ∧
    s' = goto w th WTop (logMessage (worker_error w what) (note_run w t s)) ∧
    log_ s' = (λ out, out ++ [c_str (worker_error w what)]) <$> log_ s ∧
    workers_ s' !! w = Some {| wpc := WTop; joinable := joinable th |} ∧
    (∀ w', w' ≠ w → workers_ s' !! w' = workers_ s !! w') ∧
    tasks_ s' = tasks_ s ∧ working_ s' = working_ s ∧ mt_ s' = mt_ s ∧
    allowNewTasks_ s' = allowNewTasks_ s ∧ terminate_ s' = terminate_ s ∧
    callers s' = callers s ∧
    executed s' = executed s ++ [(w, t)] ∧
    (∀ s2 th2 t2,
       reachable n logStream m s2 →
       workers_ s2 !! w = Some th2 → wpc th2 = WHasTask t2 →
       body t2 ≠ ThrowsOther →
       ∃ s3, run [LWorker w; LWorker w] s2 = Ok s3 ∧
             executed s3 = executed s2 ++ [(w, t2)]).
Proof.
  intros Hr Hl Hpc Hbody.
  assert (w < length (workers_ s)) by (by eapply lookup_lt_Some).
  eexists. split.
  { simpl. unfold worker_step. rewrite Hl, Hpc, Hbody. reflexivity. }
  unfold logMessage; simpl. destruct (log_ s) eqn:E; simpl.
  all: rewrite list_lookup_insert_eq by done; split_and!; try done.
  all: try (intros w' Hw'; by rewrite list_lookup_insert_ne).
  all: intros s2 th2 t2 Hr2 Hl2 Hpc2 Hb2;
       destruct (dequeued_task_runs _ _ _ _ _ _ _ Hr2 Hl2 Hpc2 Hb2)
         as (s3 & ? & ? & _); eauto.
Qed.

Lemma C3_std_exception_contained_witness :
  let s := after (falls_asleep ++ submits (failing 1 "boom") ++
                  [LWorker 0; LWorker 0; LWorker 0]) (boot 1 (Some []) 1) in
  reachable 1 (Some []) 1 s ∧
  ∃ s', step (LWorker 0) s = Ok s' ∧
        log_ s' = Some [c_str (worker_error 0 "boom")] ∧
        workers_ s' !! 0 = Some {| wpc := WTop; joinable := true |}.
Proof.
  assert (R : reachable 1 (Some []) 1
    (after (falls_asleep ++ submits (failing 1 "boom") ++
            [LWorker 0; LWorker 0; LWorker 0]) (boot 1 (Some []) 1)))
    by (apply reachable_after; vm_compute; reflexivity).
  split; [exact R|].
  destruct (C3_std_exception_contained 1 (Some []) 1 _ 0
              {| wpc := WRunning (failing 1 "boom"); joinable := true |}
              (failing 1 "boom") "boom" R)
    as (s' & Hs & _ & Hlog & Hw & _); [reflexivity..|].
  exists s'. split_and!; [exact Hs | exact Hlog | exact Hw].
Defined.

(** The claim C3 fails as stated: when the body throws something that is
    not a [std::exception], here the task [wild 1], no handler of l.211
    matches, the exception leaves the thread function and the program is
    terminated; the task queued behind it is never run. *)
Lemma C3_other_exception_escapes :
  let tr := falls_asleep ++ submits (wild 1) ++ submits (plain 2) ++
            [LWorker 0; LWorker 0; LWorker 0] in
  let s := after tr (boot 1 (Some []) 1) in
  run tr (boot 1 (Some []) 1) = Ok s ∧
  workers_ s !! 0 = Some {| wpc := WRunning (wild 1); joinable := true |} ∧
  tasks_ s = [plain 2] ∧
  step (LWorker 0) s = Aborted.
Proof. vm_compute. done. Qed.

(** The scenario of the specification: a faulting task followed by a plain
    one on a pool of one worker; both bodies are run, in this order, and the
    fault is in the log. *)
Lemma fault_then_plain_runs :
  let s := after fault_then_plain (boot 1 (Some []) 1) in
  run fault_then_plain (boot 1 (Some []) 1) = Ok s ∧
  executed s = [(0, failing 1 "boom"); (0, plain 2)] ∧
  log_ s = Some [c_str (worker_error 0 "boom")] ∧
  workers_ s !! 0 = Some {| wpc := WTop; joinable := true |}.
Proof. vm_compute. done. Qed.

(** ** The queue *)

Lemma fifo_step l s s' : fifo s → step l s = Ok s' → fifo s'.
Proof.
  unfold fifo. intros Hinv H.
  step_cases H; unfold logMessage in *; repeat case_match; simpl in *;
    rewrite ?fmap_app; simpl; rewrite ?Hinv; try done.
  all: try (match goal with E : tasks_ _ = _ |- _ => rewrite E end).
  all: rewrite <- ?app_assoc; try done.
Qed.

Lemma reachable_fifo n logStream m s : reachable n logStream m s → fifo s.
Proof.
  revert s. apply reachable_ind; [|by eauto using fifo_step].
  by rewrite boot_spec.
Qed.

Lemma held_decompose ws w th :
  ws !! w = Some th →
  ws ≫= held = (take w ws ≫= held) ++ held th ++ (drop (S w) ws ≫= held).
Proof.
  intros H. rewrite <- (take_drop_middle _ _ _ H) at 1.
  by rewrite bind_app, bind_cons.
Qed.

Lemma held_insert ws w th th' :
  ws !! w = Some th →
  <[w := th']> ws ≫= held
  = (take w ws ≫= held) ++ held th' ++ (drop (S w) ws ≫= held).
Proof.
  intros H. rewrite insert_take_drop by (by eapply lookup_lt_Some).
  by rewrite bind_app, bind_cons.
Qed.

Lemma held_insert_same ws w th th' :
  ws !! w = Some th → held th' = held th → <[w := th']> ws ≫= held = ws ≫= held.
Proof.
  intros H E. by rewrite (held_insert _ _ _ _ H), (held_decompose _ _ _ H), E.
Qed.

Lemma held_notify_all ws :
  ((λ th, if waiting th then wake th else th) <$> ws) ≫= held = ws ≫= held.
Proof.
  induction ws as [|th ws IH]; [done|].
  rewrite fmap_cons, !bind_cons, IH. f_equal.
  unfold waiting, wake, held. destruct (wpc th) eqn:E; simpl; by rewrite ?E.
Qed.

Ltac held_same :=
  unfold in_hand; simpl;
  first [ apply held_notify_all
        | eapply held_insert_same; [eassumption|];
          unfold held, wake, waiting in *; simpl;
          repeat case_match; simplify_eq/=; done ].

Lemma taken_snoc_true ps t :
  (filter (λ e : Task * bool, e.2 = true) (ps ++ [(t, true)])).*1
  = (filter (λ e : Task * bool, e.2 = true) ps).*1 ++ [t].
Proof. by rewrite filter_app, fmap_app. Qed.

Lemma taken_snoc_false ps t :
  (filter (λ e : Task * bool, e.2 = true) (ps ++ [(t, false)])).*1
  = (filter (λ e : Task * bool, e.2 = true) ps).*1.
Proof. rewrite filter_app, fmap_app. simpl. by rewrite app_nil_r. Qed.

Lemma nothing_discarded ps :
  (filter (λ e : Task * bool, e.2 = false) ps).*1 = [] →
  (filter (λ e : Task * bool, e.2 = true) ps).*1 = ps.*1.
Proof.
  induction ps as [|[t [|]] ps IH]; [done|..].
  - rewrite filter_cons_False, filter_cons_True by done.
    intros H. rewrite !fmap_cons. f_equal. by apply IH.
  - by rewrite filter_cons_True by done.
Qed.

Ltac hand_moves H1 H2 :=
  [> by eapply lookup_lt_Some | done | done | ..];
  try done;
  try (unfold taken; simpl; apply taken_snoc_true);
  try (unfold in_hand; rewrite (held_decompose _ _ _ H1); unfold held at 2;
       by rewrite H2);
  try (unfold in_hand; simpl; by rewrite (held_insert _ _ _ _ H1)).

Lemma step_hand_change l s s' : step l s = Ok s' → hand_change s s'.
Proof.
  intros H.
  step_cases H; unfold logMessage in *; repeat case_match; simplify_eq/=.
  all: try (by apply hand_same).
  all: try (apply hand_same; [done|done|held_same]).
  all: try (apply hand_same; [done| |done]; unfold taken; simpl;
            by rewrite taken_snoc_false).
  all: match goal with
       | H1 : workers_ _ !! ?w = Some _, H2 : wpc _ = WCheckTerm |- _ =>
           eapply (hand_take _ _ w); hand_moves H1 H2
       | H1 : workers_ _ !! ?w = Some _, H2 : wpc _ = WRunning _ |- _ =>
           eapply (hand_run _ _ w); hand_moves H1 H2
       end.
Qed.

Lemma accounted_step l s s' : accounted s → step l s = Ok s' → accounted s'.
Proof.
  unfold accounted. intros Hinv H.
  destruct (step_hand_change _ _ _ H)
    as [He Ht Hh | w t pre post _ _ _ He Ht Hh Hh'
        | w t pre post _ _ _ He Ht Hh Hh'].
  - by rewrite He, Ht, Hh.
  - rewrite He, Ht, Hh', <- Hinv, Hh. solve_Permutation.
  - rewrite He, Ht, Hh', <- Hinv, Hh, fmap_app. simpl. solve_Permutation.
Qed.

Lemma reachable_accounted n logStream m s :
  reachable n logStream m s → accounted s.
Proof.
  revert s. apply reachable_ind; [|by eauto using accounted_step].
  rewrite boot_spec. unfold accounted, in_hand, taken; simpl.
  by induction n.
Qed.

Lemma in_order_step l s s' :
  length (workers_ s) = 1 → in_order s → step l s = Ok s' → in_order s'.
Proof.
  unfold in_order. intros Hone Hinv H.
  destruct (step_hand_change _ _ _ H)
    as [He Ht Hh | w t pre post Hw Hpre Hpost He Ht Hh Hh'
        | w t pre post Hw Hpre Hpost He Ht Hh Hh'].
  - by rewrite He, Ht, Hh.
  - assert (w = 0) as -> by lia.
    rewrite take_0 in Hpre. rewrite drop_ge in Hpost by lia. subst pre post.
    rewrite He, Ht, Hh', <- Hinv, Hh. simpl. by rewrite app_nil_r.
  - assert (w = 0) as -> by lia.
    rewrite take_0 in Hpre. rewrite drop_ge in Hpost by lia. subst pre post.
    rewrite He, Ht, Hh', <- Hinv, Hh, fmap_app. simpl. by rewrite <- app_assoc.
Qed.

Lemma reachable_in_order logStream m s :
  reachable 1 logStream m s → in_order s.
Proof.
  intros Hr.
  cut (length (workers_ s) = 1 ∧ in_order s); [by intros [_ ?]|].
  revert s Hr. apply reachable_ind.
  - by rewrite boot_spec.
  - intros l s s' [Hone Hinv] H. split; [|by eauto using in_order_step].
    apply step_lengths in H as (-> & _). done.
Qed.

(** C2: the queue is first-in first-out.  In every state of every pool,
    the tasks that have left the queue, in the order of leaving, followed
    by the tasks still queued, are the tasks pushed, in the order of
    pushing.  With a single worker, the bodies run, followed by the task in
    the worker's hand, are the tasks the worker took, in the order of
    taking; so, unless tasks were thrown away by an abandoning
    [waitUntilComplete], the tasks pushed are the bodies run, the task in
    hand and the queue, in this order. *)
Theorem C2_queue_is_fifo (n : nat) (logStream : option (list string)) (m : nat)
    (s : State) :
  reachable n logStream m s →
  pushed s = (popped s).*1 ++ tasks_ s ∧
  (n = 1 → (executed s).*2 ++ in_hand s = taken s) ∧
  (n = 1 → discarded s = [] →
   pushed s = (executed s).*2 ++ in_hand s ++ tasks_ s).
Proof.
  intros Hr. pose proof (reachable_fifo _ _ _ _ Hr) as Hf. split_and!.
  - exact Hf.
  - intros ->. by apply (reachable_in_order logStream m).
  - intros -> Hd. pose proof (reachable_in_order _ _ _ Hr) as Ho.
    unfold fifo, in_order, taken, discarded in *.
    by rewrite Hf, app_assoc, Ho, nothing_discarded.
Qed.

Lemma C2_queue_is_fifo_witness :
  let s := after five_tasks (boot 1 None 1) in
  reachable 1 None 1 s ∧
  pushed s = [plain 1; plain 2; plain 3; plain 4; plain 5] ∧
  pushed s = (executed s).*2 ++ in_hand s ++ tasks_ s ∧
  in_hand s = [] ∧ tasks_ s = [].
Proof.
  assert (R : reachable 1 None 1 (after five_tasks (boot 1 None 1)))
    by (apply reachable_after; vm_compute; reflexivity).
  split_and!; [exact R | reflexivity | | reflexivity | reflexivity].
  destruct (C2_queue_is_fifo 1 None 1 _ R) as (_ & _ & H).
  apply H; reflexivity.
Defined.

(** The five tasks of the scenario are run in the order of submission. *)
Lemma five_tasks_in_order :
  (executed (after five_tasks (boot 1 None 1))).*2
  = [plain 1; plain 2; plain 3; plain 4; plain 5].
Proof. vm_compute. done. Qed.

(** ** Shutting the pool down *)

(** Instantiate the facts [HW] about workers and [HC] about callers at
    every lookup in the context. *)
Ltac inst_w HW :=
  repeat match goal with
  | E : workers_ _ !! _ = Some _ |- _ => pose proof (HW _ _ E); revert E
  end; intros.
Ltac inst_c HC :=
  repeat match goal with
  | E : callers _ !! _ = Some _ |- _ => pose proof (HC _ _ E); revert E
  end; intros.
Ltac settle :=
  repeat match goal with
  | E : wpc ?th = _ |- _ => rewrite E in *; clear E
  end;
  unfold waiting, wake in *; simpl in *;
  repeat match goal with
  | H : ?x = ?x → _ |- _ => specialize (H eq_refl)
  | H : ?P → _, H' : ?P |- _ =>
      match type of P with Prop => specialize (H H') end
  end;
  try done; try congruence.

Lemma lock_ok_step l s s' : lock_ok s → step l s = Ok s' → lock_ok s'.
Proof.
  intros [HW HC] H.
  step_cases H; unfold logMessage in *; repeat case_match; simplify_eq/=.
  all: split; [intros wx thx Hlx Hhx | intros cx pcx Hlx Hhx]; simpl in *.
  all: lookup_cases.
  all: try (destruct op; done).
  all: unfold after_queue in *; repeat case_match; try done.
  all: inst_w HW; inst_c HC; settle.
Qed.

Lemma joined_ok_step l s s' : joined_ok s → step l s = Ok s' → joined_ok s'.
Proof.
  intros HW H.
  step_cases H; unfold logMessage in *; repeat case_match; simplify_eq/=.
  all: intros wx thx Hlx Hhx; simpl in *; lookup_cases.
  all: inst_w HW; settle.
  all: repeat case_match; simplify_eq/=; settle.
Qed.

Lemma others_submit_step c l s s' :
  others_submit c s → quiet c l = true → step l s = Ok s' → others_submit c s'.
Proof.
  intros HC HQ H.
  step_cases H; unfold logMessage in *; repeat case_match; simplify_eq/=.
  all: intros cx pcx Hlx Hne; simpl in *; lookup_cases.
  all: try (by eapply HC).
  all: try (destruct op; simpl in *; try done;
            rewrite ?andb_false_r in HQ; done).
  all: unfold after_queue; inst_c HC; settle.
Qed.


Lemma step_not_by c l s s' :
  moved_by c l = false → step l s = Ok s' → callers s' !! c = callers s !! c.
Proof.
  intros Hm H.
  step_cases H; unfold logMessage in *; repeat case_match; simplify_eq/=;
    try done.
  all: apply bool_decide_eq_false in Hm.
  all: by rewrite list_lookup_insert_ne.
Qed.

Ltac outsider_cases HO H :=
  step_cases H; unfold logMessage in *; simpl in HO;
  try (destruct HO as (? & ? & HO)); repeat case_match; simplify_eq/=.

Lemma outsider_allow l s s' :
  outsider l s → step l s = Ok s' → allowNewTasks_ s' = allowNewTasks_ s.
Proof. intros HO H. by outsider_cases HO H. Qed.

Lemma step_terminate l s s' :
  step l s = Ok s' → terminate_ s = true → terminate_ s' = true.
Proof.
  intros H Ht.
  by step_cases H; unfold logMessage in *; repeat case_match; simplify_eq/=.
Qed.

Lemma step_joined_upto l s s' k :
  step l s = Ok s' → joined_upto k s → joined_upto k s'.
Proof.
  intros H HW.
  step_cases H; unfold logMessage in *; repeat case_match; simplify_eq/=;
    try done.
  all: intros wx thx Hlx Hk; simpl in *; lookup_cases.
  all: inst_w HW; settle.
  all: repeat case_match; simplify_eq/=; settle.
Qed.

Lemma outsider_drained l s s' :
  outsider l s → step l s = Ok s' → drained s → drained s'.
Proof.
  intros HO H (Ha & Hq & Hp).
  outsider_cases HO H; unfold drained, no_push; simpl.
  all: split_and!; try done; try congruence.
  all: try (intros cx pcx Hlx; simpl in *; lookup_cases; try done;
            inst_c Hp; settle).
  all: try (destruct op; done).
  all: exfalso; inst_c Hp; settle.
Qed.

Lemma quiet_outsider c l s :
  others_submit c s → quiet c l = true → moved_by c l = false → outsider l s
  ∨ ∃ c0 pick, l = LClient c0 pick ∧ callers s !! c0 = None.
Proof.
  intros HO HQ Hm. destruct l as [w|w|c0 op|c0 pick]; simpl in *; auto.
  - left. by apply andb_prop in HQ as [_ ?].
  - apply bool_decide_eq_false in Hm.
    destruct (callers s !! c0) as [pc|] eqn:E; [left|right; eauto].
    exists pc. split; [done|]. by eapply HO.
Qed.

Lemma closing_at_outsider l s s' pc :
  outsider l s → step l s = Ok s' → closing_at pc s → closing_at pc s'.
Proof.
  intros HO H.
  pose proof (outsider_allow _ _ _ HO H) as Ha.
  pose proof (outsider_drained _ _ _ HO H) as Hd.
  pose proof (step_terminate _ _ _ H) as Ht.
  pose proof (λ k, step_joined_upto _ _ _ k H) as Hj.
  destruct (step_lengths _ _ _ H) as (Hlen & _).
  destruct pc as [| | | | | | |a b [|]|[|] b [|]|[|]|[|]|[|]|[|]|[|]| | | | | |];
    simpl; try done; try congruence; rewrite ?Hlen; intuition auto.
Qed.

Lemma closing_own c pick s s' :
  lock_ok s → closing c s → step (LClient c pick) s = Ok s' → closing c s'.
Proof.
  intros [HLW HLC] (pc & E & Hcl) H.
  assert (c < length (callers s)) by (by eapply lookup_lt_Some).
  simpl in H. unfold client_step in H. rewrite E in H.
  destruct pc as [| | | | | | |a b [|]|[|] b [|]|[|]|[|]|[|]|[|]|[|]| | | | | |];
    simpl in Hcl; try done.
  all: cbn [in_drain addTask waitUntilComplete] in H;
       unfold lock, after_queue in H; repeat case_match; simplify_eq/=.
  all: eexists; (split; [by apply list_lookup_insert_eq|]); simpl; try done.
  all: unfold drained, no_push, joined_upto in *; simpl in *.
  all: destruct_and?; split_and?; try done.
  all: try (by destruct a, b).
  all: try (intros cx pcx Hlx; lookup_cases; try done;
            destruct pcx; try done; exfalso;
            solve [ inst_c HLC; settle
                  | match goal with
                    | Hp : ∀ c' pc, callers _ !! c' = Some pc → pushing pc = false |- _ =>
                        inst_c Hp; settle
                    end ]).
  all: intros ix thx Hlx Hix; lookup_cases; try done; try lia.
  all: match goal with
       | Hj : ∀ i th, workers_ ?s !! i = Some th → i < ?k → joinable th = false,
         Hx : workers_ ?s !! ?ix = Some ?thx |- joinable ?thx = false =>
           destruct (decide (ix < k)); [by apply (Hj ix)|]
       end.
  all: try match goal with
       | Hn : workers_ _ !! _ = None |- _ => apply lookup_ge_None in Hn; lia
       end.
  all: assert (ix = k) as -> by lia; by simplify_eq.
Qed.

Lemma closing_step c l s s' :
  lock_ok s → others_submit c s → closing c s →
  quiet c l = true → step l s = Ok s' → closing c s'.
Proof.
  intros HL HO HCl HQ H.
  destruct (moved_by c l) eqn:Hm.
  - destruct l as [w|w|c0 op|c0 pick]; simpl in Hm; try done;
      apply bool_decide_eq_true in Hm as ->.
    + simpl in HQ. by rewrite bool_decide_eq_true_2 in HQ.
    + by eapply closing_own.
  - destruct HCl as (pc & E & Hcl).
    exists pc. split; [by rewrite (step_not_by _ _ _ _ Hm H)|].
    destruct (quiet_outsider _ _ _ HO HQ Hm) as [Hout|(c0 & pick & -> & Hn)].
    + by eapply closing_at_outsider.
    + simpl in H. unfold client_step in H. by rewrite Hn in H.
Qed.

Lemma submitting_outsider l s s' :
  nobody_drains s → submitting l = true → step l s = Ok s' → outsider l s.
Proof.
  intros HN HS H. destruct l as [w|w|c0 op|c0 pick]; simpl in *; auto.
  unfold client_step in H.
  destruct (callers s !! c0) as [pc|] eqn:E; [|done]. eauto.
Qed.

Lemma nobody_drains_step l s s' :
  nobody_drains s → submitting l = true → step l s = Ok s' → nobody_drains s'.
Proof.
  intros HN HS H.
  step_cases H; unfold logMessage in *; repeat case_match; simplify_eq/=;
    try done.
  all: intros cx pcx Hlx; simpl in *; lookup_cases; try done;
       try (by eapply HN).
  all: try (by destruct op).
  all: exfalso; inst_c HN; settle.
Qed.




Lemma joined_all_retired s :
  joined_ok s → joined_upto (length (workers_ s)) s → Forall retired (workers_ s).
Proof.
  intros Hok Hj. apply Forall_lookup. intros i th Hl.
  assert (joinable th = false)
    by (eapply Hj; [done|by eapply lookup_lt_Some]).
  split; [by eapply Hok|done].
Qed.

Lemma reachable_lock_ok n logStream m s : reachable n logStream m s → lock_ok s.
Proof.
  revert s. apply reachable_ind; [|by eauto using lock_ok_step].
  rewrite boot_spec. split; simpl.
  - intros w th Hl. apply lookup_replicate in Hl as [-> _]. done.
  - intros c pc Hl. apply lookup_replicate in Hl as [-> _]. done.
Qed.

Lemma reachable_joined_ok n logStream m s :
  reachable n logStream m s → joined_ok s.
Proof.
  revert s. apply reachable_ind; [|by eauto using joined_ok_step].
  rewrite boot_spec. intros w th Hl. simpl in Hl.
  apply lookup_replicate in Hl as [-> _]. done.
Qed.

Lemma closing_run c tr s s' :
  Forall (λ l, quiet c l = true) tr →
  lock_ok s → others_submit c s → closing c s → run tr s = Ok s' →
  lock_ok s' ∧ others_submit c s' ∧ closing c s'.
Proof.
  intros HQ HL HO HC Hrun.
  apply (run_preserves (λ l, quiet c l = true)
           (λ x, lock_ok x ∧ others_submit c x ∧ closing c x)) with tr s;
    try done.
  intros l s1 s2 Hl (? & ? & ?) Hstep. split_and!.
  - by eapply lock_ok_step.
  - by eapply others_submit_step.
  - by eapply closing_step.
Qed.

Lemma closing_returned c s :
  others_submit c s → closing c s → callers s !! c = Some CIdle → shut s.
Proof.
  intros HO (pc & E & Hcl) Hc. simplify_eq. simpl in Hcl.
  destruct Hcl as (Hd & Ht & Hj). split_and!; try done.
  intros c0 pc0 Hl. destruct (decide (c0 = c)) as [->|Hne]; [by simplify_eq|].
  by eapply HO.
Qed.

(** A [waitUntilComplete(_, _, true)] that has returned leaves the pool
    shut, with every worker thread retired. *)
Lemma terminating_call_shuts n logStream m s0 c a b tr s1 :
  reachable n logStream m s0 →
  callers s0 !! c = Some (D_Entry a b true) →
  others_submit c s0 →
  Forall (λ l, quiet c l = true) tr →
  run tr s0 = Ok s1 →
  callers s1 !! c = Some CIdle →
  shut s1 ∧ Forall retired (workers_ s1).
Proof.
  intros Hr Hc HO HQ Hrun Hret.
  assert (closing c s0) as HC0 by (by exists (D_Entry a b true)).
  destruct (closing_run c tr s0 s1 HQ (reachable_lock_ok _ _ _ _ Hr) HO HC0 Hrun)
    as (_ & HO1 & HC1).
  pose proof (closing_returned _ _ HO1 HC1 Hret) as Hshut.
  split; [done|]. destruct Hshut as (_ & _ & _ & Hj).
  apply joined_all_retired; [|done].
  eapply reachable_joined_ok, reachable_run; eauto.
Qed.




(** ** Destruction *)

Lemma in_hand_retired s : Forall retired (workers_ s) → in_hand s = [].
Proof.
  unfold in_hand. induction (workers_ s) as [|th ws IH]; [done|].
  intros H. inversion_clear H as [|?? [Hpc _] Hws].
  rewrite bind_cons, IH by done. unfold held. by rewrite Hpc.
Qed.

(** The loop of l.139-140, run by a caller that holds the mutex: as many
    pops as there are tasks, each of a task that no worker has taken, then
    the test that ends the loop. *)
Lemma abandon_loop c pick z q :
  ∀ s, tasks_ s = q → callers s !! c = Some (D_AbLoop z) →
  ∃ s', run (replicate (S (length q)) (LClient c pick)) s = Ok s' ∧
        tasks_ s' = [] ∧
        popped s' = popped s ++ ((λ t, (t, false)) <$> q) ∧
        executed s' = executed s ∧
        in_hand s' = in_hand s ∧
        callers s' !! c = Some (after_queue z).
Proof.
  induction q as [|t q IH]; intros s Hq Hc;
    assert (c < length (callers s)) by (by eapply lookup_lt_Some).
  - eexists. simpl. unfold client_step. rewrite Hc. simpl. rewrite Hq.
    split; [done|].
    simpl. rewrite app_nil_r, list_lookup_insert_eq by done. done.
  - destruct (IH (at_pc c (D_AbLoop z) (note_pop t false (set_tasks q s))))
      as (s' & Hrun & ? & Hpop & ? & ? & ?); [done|..].
    { simpl. by rewrite list_lookup_insert_eq. }
    exists s'. split_and!; try done.
    + change (replicate (S (length (t :: q))) (LClient c pick))
        with (LClient c pick :: replicate (S (length q)) (LClient c pick)).
      cbn [run step]. unfold client_step at 1. rewrite Hc.
      cbn [in_drain waitUntilComplete]. by rewrite Hq.
    + rewrite Hpop. simpl. by rewrite <- app_assoc.
Qed.

Lemma others_submit_at_pc c pc s :
  others_submit c s → others_submit c (at_pc c pc s).
Proof.
  intros HO c' pc' Hl Hne. simpl in Hl.
  rewrite list_lookup_insert_ne in Hl by done. by eapply HO.
Qed.

(** What the source does guarantee about destruction: the destructor is
    the call [waitUntilComplete(false, true, true)], whatever was called
    before, and when it has returned, intake is closed,
    the queue is empty, [terminate_] is set and every worker thread has
    left its loop and has been joined; every task ever pushed has left
    the queue, and the bodies that were run are the tasks that workers
    had taken before, so that no task popped by the destructor was run.
    The loop of l.139-140 pops every task that is queued when the
    destructor holds the mutex, without running any. *)
Theorem destructor_is_abandoning_terminate (n : nat)
    (logStream : option (list string)) (m : nat) (s0 : State) (c : nat)
    (tr : list label) (s1 : State) :
  reachable n logStream m s0 →
  callers s0 !! c = Some CIdle →
  others_submit c s0 →
  Forall (λ l, quiet c l = true) tr →
  run (LCall c Destroy :: tr) s0 = Ok s1 →
  callers s1 !! c = Some CIdle →
  step (LCall c Destroy) s0
    = step (LCall c (WaitUntilComplete false true true)) s0 ∧
  allowNewTasks_ s1 = false ∧
  tasks_ s1 = [] ∧
  terminate_ s1 = true ∧
  Forall retired (workers_ s1) ∧
  pushed s1 = (popped s1).*1 ∧
  (executed s1).*2 ≡ₚ taken s1 ∧
  (∀ s pick, callers s !! c = Some (D_AbLoop true) →
     ∃ s', run (replicate (S (length (tasks_ s))) (LClient c pick)) s = Ok s' ∧
           tasks_ s' = [] ∧
           popped s' = popped s ++ ((λ t, (t, false)) <$> tasks_ s) ∧
           executed s' = executed s ∧
           in_hand s' = in_hand s ∧
           callers s' !! c = Some D_Term).
Proof.
  intros Hr Hc HO HQ Hrun Hret.
  split; [done|].
  cbn [run step] in Hrun. unfold call_step in Hrun. rewrite Hc in Hrun.
  cbn [entry] in Hrun.
  set (s0' := at_pc c (D_Entry false true true) s0) in *.
  assert (reachable n logStream m s0') as Hr'.
  { apply (reachable_step _ _ _ (LCall c Destroy) s0); [done|].
    simpl. unfold call_step. by rewrite Hc. }
  assert (callers s0' !! c = Some (D_Entry false true true)) as Hc'.
  { simpl. apply list_lookup_insert_eq. by eapply lookup_lt_Some. }
  destruct (terminating_call_shuts n logStream m s0' c false true tr s1
              Hr' Hc' (others_submit_at_pc _ _ _ HO) HQ Hrun Hret)
    as ((_ & (Ha & Hq & _) & Ht & _) & Hw).
  pose proof (reachable_run _ _ _ _ _ _ Hr' Hrun) as Hr1.
  split_and!; try done.
  - pose proof (reachable_fifo _ _ _ _ Hr1) as Hf. unfold fifo in Hf.
    by rewrite Hq, app_nil_r in Hf.
  - pose proof (reachable_accounted _ _ _ _ Hr1) as Hacc. unfold accounted in Hacc.
    by rewrite (in_hand_retired _ Hw), app_nil_r in Hacc.
  - intros s pick Hs. by apply (abandon_loop c pick true (tasks_ s)).
Qed.

Lemma destructor_is_abandoning_terminate_example :
  reachable 1 None 1 backlog_pool ∧
  run destroy_with_backlog backlog_pool = Ok backlog_pool_destroyed ∧
  allowNewTasks_ backlog_pool_destroyed = false ∧
  tasks_ backlog_pool_destroyed = [] ∧
  terminate_ backlog_pool_destroyed = true ∧
  Forall retired (workers_ backlog_pool_destroyed) ∧
  (executed backlog_pool_destroyed).*2 ≡ₚ taken backlog_pool_destroyed ∧
  discarded backlog_pool_destroyed = [plain 1; plain 2] ∧
  executed backlog_pool_destroyed = [].
Proof.
  assert (R : reachable 1 None 1 backlog_pool)
    by (apply reachable_after; vm_compute; reflexivity).
  assert (E : run destroy_with_backlog backlog_pool = Ok backlog_pool_destroyed)
    by (apply run_after; vm_compute; reflexivity).
  split; [exact R|]. split; [exact E|].
  destruct (destructor_is_abandoning_terminate 1 None 1 backlog_pool 0
              (tail destroy_with_backlog) backlog_pool_destroyed R)
    as (_ & Ha & Hq & Ht & Hw & _ & Hx & _).
  - reflexivity.
  - intros [|c'] pc Hl Hne; [done|]. vm_compute in Hl. discriminate.
  - repeat constructor.
  - exact E.
  - reflexivity.
  - split_and!; try assumption; reflexivity.
Defined.

(** Not every terminating call returns.  A worker that is inside a task
    body when [notify_all] is issued (l.158) finds the queue empty
    afterwards and waits at l.197 without looking at [terminate_]; the
    caller stands at the [join] of l.161, and no thread can move unless a
    wait returns spuriously. *)
Lemma terminate_while_busy_blocks :
  let tr := falls_asleep ++ submits (plain 1) ++
            [ LWorker 0; LWorker 0; LWorker 0;   (* l.197-209: worker 0 takes the task *)
              LCall 0 (WaitUntilComplete false false true);
              LClient 0 0; LClient 0 0; LClient 0 0; LClient 0 0; (* l.129-149 *)
              LClient 0 0; LClient 0 0;          (* l.157-158 *)
              LWorker 0;                         (* l.210: the body returns *)
              LWorker 0; LWorker 0; LWorker 0 ]  (* l.193-197: waits *) in
  let s := after tr (boot 1 None 1) in
  run tr (boot 1 None 1) = Ok s ∧
  terminate_ s = true ∧
  workers_ s = [{| wpc := WWaiting; joinable := true |}] ∧
  callers s = [D_Join 0] ∧
  step (LWorker 0) s = Blocked ∧
  (∀ pick, step (LClient 0 pick) s = Blocked).
Proof. vm_compute. done. Qed.

(** ** Waiting for the workers *)

Lemma history_snoc tr l s s1 :
  run tr s = Ok s1 → history (tr ++ [l]) s = history tr s ++ [(s1, l)].
Proof.
  revert s. induction tr as [|l0 tr IH]; intros s Hrun; simpl in *.
  - simplify_eq. by destruct (step l s1).
  - destruct (step l0 s) as [s'| | |]; try done. by rewrite IH.
Qed.

Lemma run_history_ind (Q : label → Prop)
    (P : list (State * label) → State → Prop) s0 :
  P [] s0 →
  (∀ h s l s', Q l → P h s → step l s = Ok s' → P (h ++ [(s, l)]) s') →
  ∀ tr s1, Forall Q tr → run tr s0 = Ok s1 → P (history tr s0) s1.
Proof.
  intros H0 Hstep tr. induction tr as [|l tr IH] using rev_ind;
    intros s1 HQ Hrun.
  - simpl in *. by simplify_eq.
  - apply Forall_app in HQ as [HQ Hl]. inversion_clear Hl as [|?? Hl' _].
    apply run_snoc in Hrun as (s & Hrun & Hs).
    rewrite (history_snoc _ _ _ _ Hrun). eauto.
Qed.

Lemma own_history_snoc_other c h s l :
  moved_by c l = false → own_history c (h ++ [(s, l)]) = own_history c h.
Proof.
  intros Hm. unfold own_history. rewrite filter_app.
  rewrite filter_cons_False, filter_nil, app_nil_r; [done|].
  unfold own; simpl. destruct l; simpl in *; congruence.
Qed.

Lemma own_history_snoc_own c h s pick :
  own_history c (h ++ [(s, LClient c pick)])
  = own_history c h ++ [(s, LClient c pick)].
Proof.
  unfold own_history. rewrite filter_app.
  rewrite filter_cons_True; [done|].
  unfold own; simpl. by apply bool_decide_eq_true.
Qed.

Lemma reopening_at_outsider c l s s' pc h :
  outsider l s → step l s = Ok s' →
  reopening_at c pc h s → reopening_at c pc h s'.
Proof.
  intros HO H.
  pose proof (outsider_allow _ _ _ HO H) as Ha.
  destruct (step_lengths _ _ _ H) as (_ & Hlen & _).
  destruct pc as [| | | | | | |x y [|]|x y [|]|[|]|[|]|[|]|[|]|[|]| | | | | |];
    simpl; rewrite ?Hlen, ?Ha; done.
Qed.

Lemma idle_scan_snoc c k scan e :
  idle_scan c k scan → idle_read c k e → idle_scan c (S k) (scan ++ [e]).
Proof.
  intros [<- Hs] He. split; [rewrite length_app; simpl; lia|].
  intros i e' Hl. apply lookup_app_Some in Hl as [Hl|[Hge Hl]]; [eauto|].
  destruct (i - length scan) as [|j] eqn:Ej; simplify_eq/=.
  by replace i with (length scan) by lia.
Qed.

Lemma reopening_own c pick h s s' :
  flags_ok s → reopening c h s → step (LClient c pick) s = Ok s' →
  reopening c (h ++ [(s, LClient c pick)]) s'.
Proof.
  intros HF (pc & E & Hre) H.
  assert (c < length (callers s)) by (by eapply lookup_lt_Some).
  unfold reopening. rewrite own_history_snoc_own.
  simpl in H. unfold client_step in H. rewrite E in H.
  destruct pc as [| | | | | | |x y [|]|x y [|]|[|]|[|]|[|]|[|]|[|]| | | | | |];
    simpl in Hre; try done.
  all: cbn [in_drain addTask waitUntilComplete] in H;
       unfold lock, after_queue in H; repeat case_match; simplify_eq/=.
  all: eexists; (split; [by apply list_lookup_insert_eq|]); simpl; try done.
  all: try (split; [lia|]; eexists _, []; rewrite app_nil_r;
            split; [done|]; split; [done|]; by intros i e Hl).
  - destruct Hre as (Hk & pre & scan & Hh & Hscan).
    match goal with Hw : working_ s !! k = Some false |- _ =>
      split; [apply lookup_lt_Some in Hw; lia|];
      exists pre, (scan ++ [(s, LClient c pick)]);
      rewrite Hh, app_assoc; split; [done|];
      apply idle_scan_snoc; [done|]; split_and!; [done|done|];
      intros th t Hth Hpc; specialize (HF _ _ Hth); unfold flag_ok in HF;
      rewrite Hpc in HF; congruence
    end.
  - destruct Hre as (Hk & pre & scan & Hh & Hscan).
    match goal with Hw : working_ s !! k = None |- _ =>
      apply lookup_ge_None in Hw;
      assert (k = length (working_ s)) as -> by lia
    end.
    exists pre, scan, (s, LClient c pick).
    rewrite Hh, app_assoc. done.
  - destruct Hre as (pre & scan & e & Hh & Hscan & He).
    exists pre, scan, e, (s, LClient c pick).
    rewrite Hh, <- !app_assoc. done.
Qed.

Lemma open_pool_run tr s s' :
  Forall (λ l, submitting l = true) tr → open_pool s → run tr s = Ok s' →
  open_pool s'.
Proof.
  intros HQ Hs Hrun.
  apply (run_preserves (λ l, submitting l = true) open_pool) with tr s;
    try done.
  intros l s1 s2 Hl [HN Ha] Hstep. split.
  - by eapply nobody_drains_step.
  - rewrite <- Ha. eapply outsider_allow; [|done].
    by eapply submitting_outsider.
Qed.

Lemma reopening_step c h l s s' :
  flags_ok s → others_submit c s → reopening c h s →
  quiet c l = true → step l s = Ok s' → reopening c (h ++ [(s, l)]) s'.
Proof.
  intros HF HO HRe HQ H.
  destruct (moved_by c l) eqn:Hm.
  - destruct l as [w|w|c0 op|c0 pick]; simpl in Hm; try done;
      apply bool_decide_eq_true in Hm as ->.
    + simpl in HQ. by rewrite bool_decide_eq_true_2 in HQ.
    + by eapply reopening_own.
  - destruct HRe as (pc & E & Hre).
    exists pc. split; [by rewrite (step_not_by _ _ _ _ Hm H)|].
    rewrite own_history_snoc_other by done.
    destruct (quiet_outsider _ _ _ HO HQ Hm) as [Hout|(c0 & pick & -> & Hn)].
    + by eapply reopening_at_outsider.
    + simpl in H. unfold client_step in H. by rewrite Hn in H.
Qed.

Lemma reopening_run c tr s0 s1 :
  Forall (λ l, quiet c l = true) tr →
  flags_ok s0 → others_submit c s0 → reopening c [] s0 →
  run tr s0 = Ok s1 →
  others_submit c s1 ∧ reopening c (history tr s0) s1.
Proof.
  intros HQ HF HO HRe Hrun.
  cut (flags_ok s1 ∧ others_submit c s1 ∧ reopening c (history tr s0) s1);
    [by intros (_ & ? & ?)|].
  revert tr s1 HQ Hrun.
  apply (run_history_ind (λ l, quiet c l = true)
           (λ h s, flags_ok s ∧ others_submit c s ∧ reopening c h s)); [done|].
  intros h s l s' Hl (? & ? & ?) Hstep. split_and!.
  - by eapply flags_ok_step.
  - by eapply others_submit_step.
  - by eapply reopening_step.
Qed.

(** What the source does guarantee about a [waitUntilComplete(_, _, false)]:
    it returns only after one sweep over [working_] (l.165) in which every
    flag was read false, no worker being inside a task body when its flag
    was read; the two statements that follow the sweep end it and set
    [allowNewTasks_] (l.169), whatever [allowNewTasks] the caller passed.
    From then on intake stays open: every [addTask] passes both tests of
    [allowNewTasks_] and pushes its task at the back of the queue.  No
    other caller is inside [waitUntilComplete] during the call, and none
    enters it afterwards. *)
Theorem drain_reopens_intake (n : nat) (logStream : option (list string))
    (m : nat) (s0 : State) (c : nat) (a b : bool) (tr : list label)
    (s1 : State) :
  reachable n logStream m s0 →
  callers s0 !! c = Some (D_Entry a b false) →
  others_submit c s0 →
  Forall (λ l, quiet c l = true) tr →
  run tr s0 = Ok s1 →
  callers s1 !! c = Some CIdle →
  (∃ pre scan e1 e2,
     own_history c (history tr s0) = pre ++ scan ++ [e1; e2] ∧
     idle_scan c n scan ∧
     callers e1.1 !! c = Some (D_Poll n) ∧
     callers e2.1 !! c = Some D_Open) ∧
  allowNewTasks_ s1 = true ∧
  ∀ tr2 s2,
    Forall (λ l, submitting l = true) tr2 → run tr2 s1 = Ok s2 →
    allowNewTasks_ s2 = true ∧
    (∀ c' t pick, callers s2 !! c' = Some (A_Check1 t) →
       step (LClient c' pick) s2 = Ok (at_pc c' (A_Lock t) s2)) ∧
    (∀ c' t pick, callers s2 !! c' = Some (A_Check2 t) →
       step (LClient c' pick) s2 = Ok (at_pc c' (A_Push t) s2)) ∧
    (∀ c' t pick, callers s2 !! c' = Some (A_Push t) →
       ∃ s3, step (LClient c' pick) s2 = Ok s3 ∧
             tasks_ s3 = tasks_ s2 ++ [t] ∧ pushed s3 = pushed s2 ++ [t]).
Proof.
  intros Hr Hc HO HQ Hrun Hret.
  assert (reopening c [] s0) as HRe0 by (by exists (D_Entry a b false)).
  destruct (reopening_run c tr s0 s1 HQ (reachable_flags_ok _ _ _ _ Hr) HO
              HRe0 Hrun) as (HO1 & pc & E & HRe1).
  simplify_eq. simpl in HRe1.
  destruct HRe1 as (pre & scan & e1 & e2 & Hh & Hscan & He1 & He2 & Ha).
  destruct (reachable_lengths _ _ _ _ (reachable_run _ _ _ _ _ _ Hr Hrun))
    as (_ & Hlen & _). rewrite Hlen in *.
  split; [by exists pre, scan, e1, e2|]. split; [done|].
  intros tr2 s2 HQ2 Hrun2.
  assert (open_pool s1) as Hopen.
  { split; [|done]. intros c0 pc0 Hl.
    destruct (decide (c0 = c)) as [->|Hne]; [by simplify_eq|]. by eapply HO1. }
  destruct (open_pool_run _ _ _ HQ2 Hopen Hrun2) as [_ Ha2].
  split_and!; try done.
  - intros c' t pick E. simpl. unfold client_step. rewrite E; simpl; by rewrite Ha2.
  - intros c' t pick E. simpl. unfold client_step. rewrite E; simpl; by rewrite Ha2.
  - intros c' t pick E. eexists. simpl. unfold client_step. rewrite E.
    split; [done|]. done.
Qed.

Lemma drain_reopens_intake_example :
  reachable 1 None 1 idle_pool_draining ∧
  run drain_and_reopen idle_pool_draining = Ok idle_pool_reopened ∧
  allowNewTasks_ idle_pool_reopened = true.
Proof.
  assert (R : reachable 1 None 1 idle_pool_draining)
    by (apply reachable_after; vm_compute; reflexivity).
  assert (E : run drain_and_reopen idle_pool_draining = Ok idle_pool_reopened)
    by (apply run_after; vm_compute; reflexivity).
  split; [exact R|]. split; [exact E|].
  destruct (drain_reopens_intake 1 None 1 idle_pool_draining 0 false false
              drain_and_reopen idle_pool_reopened R) as (_ & Ha & _).
  - reflexivity.
  - intros [|c'] pc Hl Hne; [done|]. vm_compute in Hl. discriminate.
  - repeat constructor.
  - exact E.
  - reflexivity.
  - exact Ha.
Defined.

(** C7 fails on the source.  The call returns only after every flag was
    read false, and it sets [allowNewTasks_]; but a false flag does not
    mean that the work taken from the queue is finished.  Here
    [waitUntilComplete(false, false, false)] has returned, having read the
    flag of worker 0 as false, while worker 0 holds a task that it took
    from the queue before the call (l.204-206) and has not set its flag
    (l.209): the body runs after the return. *)
Theorem C7_returns_before_dequeued_task_ran :
  let s := after drain_overtakes_worker (boot 1 None 1) in
  forallb genuine drain_overtakes_worker = true ∧
  run drain_overtakes_worker (boot 1 None 1) = Ok s ∧
  callers s = [CIdle] ∧
  workers_ s = [{| wpc := WHasTask (plain 1); joinable := true |}] ∧
  popped s = [(plain 1, true)] ∧
  executed s = [] ∧
  working_ s = [false] ∧
  allowNewTasks_ s = true ∧
  executed (after [LWorker 0; LWorker 0] s) = [(0, plain 1)].
Proof. vm_compute. done. Qed.

(** ** Re-arming *)

Lemma revive_retired ws :
  Forall retired ws → revive <$> ws = replicate (length ws) fresh_thread.
Proof.
  induction 1 as [|th ws [Hpc _] _ IH]; [done|].
  rewrite fmap_cons, IH. simpl. unfold revive. by rewrite Hpc.
Qed.

Lemma revive_alive th : wpc (revive th) ≠ WExited.
Proof. unfold revive. destruct (wpc th) eqn:E; simpl; by rewrite ?E. Qed.

(** C9, for [reset] and [respawn] as the specification describes them:
    both leave a pool in which no worker thread has returned, a pool whose
    threads had all returned and been joined getting a new thread, at the
    top of its loop, in the place of each; [terminate_] is clear and
    [allowNewTasks_] is set, so that an [addTask] passes both tests of
    [allowNewTasks_] again; the queue is left as it is. *)
Theorem C9_rearm (n : nat) (logStream : option (list string)) (m : nat)
    (s : State) :
  reachable n logStream m s →
  reset s = respawn s ∧
  length (workers_ (respawn s)) = n ∧
  Forall (λ th, wpc th ≠ WExited) (workers_ (respawn s)) ∧
  (Forall retired (workers_ s) →
   workers_ (respawn s) = replicate n fresh_thread) ∧
  allowNewTasks_ (respawn s) = true ∧
  terminate_ (respawn s) = false ∧
  tasks_ (respawn s) = tasks_ s ∧
  (∀ c t pick, callers (respawn s) !! c = Some (A_Check1 t) →
     step (LClient c pick) (respawn s) = Ok (at_pc c (A_Lock t) (respawn s))) ∧
  (∀ c t pick, callers (respawn s) !! c = Some (A_Check2 t) →
     step (LClient c pick) (respawn s) = Ok (at_pc c (A_Push t) (respawn s))).
Proof.
  intros Hr. destruct (reachable_lengths _ _ _ _ Hr) as (Hn & _).
  split_and!; try done.
  - simpl. by rewrite length_fmap.
  - simpl. apply Forall_fmap, Forall_true. intros th. apply revive_alive.
  - intros Hw. simpl. by rewrite (revive_retired _ Hw), Hn.
  - intros c t pick E. simpl in *. unfold client_step. simpl. by rewrite E.
  - intros c t pick E. simpl in *. unfold client_step. simpl. by rewrite E.
Qed.

Lemma C9_rearm_witness :
  reachable 1 None 1 idle_pool_retired ∧
  workers_ (respawn idle_pool_retired) = [fresh_thread] ∧
  allowNewTasks_ (respawn idle_pool_retired) = true ∧
  terminate_ (respawn idle_pool_retired) = false.
Proof.
  assert (R : reachable 1 None 1 idle_pool_retired).
  { apply (reachable_run 1 None 1 retire_idle_pool idle_pool_entered).
    - apply reachable_after; vm_compute; reflexivity.
    - apply run_after; vm_compute; reflexivity. }
  split; [exact R|].
  destruct (C9_rearm 1 None 1 idle_pool_retired R)
    as (_ & _ & _ & Hw & Ha & Ht & _).
  split_and!; [apply Hw; repeat constructor | exact Ha | exact Ht].
Defined.

(** A retired pool of one, re-armed, runs a task submitted to it. *)
Lemma respawned_pool_runs_task :
  executed (after (submits (plain 7) ++ takes_and_runs)
              (respawn idle_pool_retired)) = [(0, plain 7)].
Proof. vm_compute. done. Qed.

(* ================================================================= *)
(** * Further properties of the pool *)

(** One transition, given the state it leads to. *)
Lemma run_cons_ok l tr s s1 : step l s = Ok s1 → run (l :: tr) s = run tr s1.
Proof. intros H. simpl. by rewrite H. Qed.

(** Two states with the same members are the same state. *)
Lemma State_eq (s1 s2 : State) :
  log_ s1 = log_ s2 → workers_ s1 = workers_ s2 → working_ s1 = working_ s2 →
  tasks_ s1 = tasks_ s2 → mt_ s1 = mt_ s2 →
  allowNewTasks_ s1 = allowNewTasks_ s2 → terminate_ s1 = terminate_ s2 →
  callers s1 = callers s2 → pushed s1 = pushed s2 → popped s1 = popped s2 →
  executed s1 = executed s2 → s1 = s2.
Proof. destruct s1, s2; simpl; intros; by subst. Qed.

(** The entry of a vector that was just written. *)
Ltac look :=
  simpl; rewrite ?list_lookup_insert_eq by (rewrite ?length_insert; done); simpl.

(** ** Critical sections *)

Lemma held_by_thread_step l s s' :
  lock_ok s → held_by_thread s → step l s = Ok s' → held_by_thread s'.
Proof.
  intros [HW HC] HM H oo Ho.
  step_cases H; unfold logMessage in *; repeat case_match; simplify_eq/=.
  all: try (by rewrite list_lookup_insert_eq by (by eapply lookup_lt_Some)).
  all: specialize (HM _ Ho); destruct oo as [wo|co]; simpl in HM |- *.
  all: try done.
  all: try (rewrite list_lookup_fmap;
            destruct (workers_ s !! wo) as [x|] eqn:Hx; [|done]; simpl;
            unfold waiting; by destruct (wpc x)).
  all: repeat match goal with
       | |- context [<[?i := _]> _ !! ?j] =>
           destruct (decide (j = i)) as [->|];
           [rewrite list_lookup_insert_eq by (by eapply lookup_lt_Some)
           |rewrite list_lookup_insert_ne by done]
       end.
  all: try done.
  all: repeat match goal with
       | E : ?l !! ?i = Some _, M : context [?l !! ?i] |- _ =>
           rewrite E in M
       end.
  all: simplify_eq/=; inst_w HW; inst_c HC; settle.
  all: try (by destruct (wpc t)).
  rewrite list_lookup_fmap.
  destruct (workers_ s !! wo) as [x|] eqn:Hx; [|done]. simpl in *.
  by destruct (wpc x) eqn:E; simpl; rewrite ?E.
Qed.

Lemma reachable_held_by_thread n logStream m s :
  reachable n logStream m s → lock_ok s ∧ held_by_thread s.
Proof.
  revert s. apply reachable_ind.
  - split; [by apply (reachable_lock_ok n logStream m), reachable_boot|].
    rewrite boot_spec. by intros o Ho.
  - intros l s s' [HL HM] H.
    eauto using lock_ok_step, held_by_thread_step.
Qed.

(** Mutual exclusion.  In every state a pool can reach, two threads that
    stand at statements of the critical sections of [mt_] (l.193-206 of
    the worker, l.109-116 of [addTask], l.138-140 and l.145-151 of
    [waitUntilComplete]) are one and the same thread, and that thread is
    the holder of the mutex. *)
Theorem mutex_excludes (n : nat) (logStream : option (list string))
    (m : nat) (s : State) (o1 o2 : owner) :
  reachable n logStream m s →
  in_critical s o1 = true → in_critical s o2 = true →
  o1 = o2 ∧ mt_ s = Some o1.
Proof.
  intros Hr H1 H2. destruct (reachable_lock_ok _ _ _ _ Hr) as [HW HC].
  assert (∀ o, in_critical s o = true → mt_ s = Some o) as Hm.
  { intros [w|c]; simpl; intros Hin; case_match; try done; eauto. }
  pose proof (Hm _ H1). pose proof (Hm _ H2). split; congruence.
Qed.

Lemma mutex_excludes_witness :
  OWorker 0 = OWorker 0 ∧ mt_ worker_in_section = Some (OWorker 0).
Proof.
  apply (mutex_excludes 1 None 1 worker_in_section (OWorker 0) (OWorker 0)).
  - apply reachable_after. vm_compute. reflexivity.
  - reflexivity.
  - reflexivity.
Defined.

(** The mutex is never left locked.  Whenever [mt_] is held, its holder
    stands inside one of the critical sections: every path out of a
    guarded scope, the early [return] of l.113 and the [return] of l.202
    included, releases the mutex. *)
Theorem mutex_released_outside (n : nat) (logStream : option (list string))
    (m : nat) (s : State) (o : owner) :
  reachable n logStream m s → mt_ s = Some o → in_critical s o = true.
Proof. intros Hr. by apply (reachable_held_by_thread _ _ _ _ Hr). Qed.

Lemma mutex_released_outside_witness :
  in_critical worker_in_section (OWorker 0) = true.
Proof.
  apply (mutex_released_outside 1 None 1).
  - apply reachable_after. vm_compute. reflexivity.
  - reflexivity.
Defined.

(** [tasks_] is only touched under the mutex: a transition that changes
    the queue is a statement of a worker or of a caller, and that thread
    holds [mt_] when it executes the statement. *)
Theorem queue_moves_under_mutex (n : nat)
    (logStream : option (list string)) (m : nat) (s s' : State) (l : label) :
  reachable n logStream m s →
  step l s = Ok s' →
  tasks_ s' ≠ tasks_ s →
  ∃ o, mover l = Some o ∧ mt_ s = Some o.
Proof.
  intros Hr H Hne. destruct (reachable_lock_ok _ _ _ _ Hr) as [HW HC].
  step_cases H; unfold logMessage in *; repeat case_match; simplify_eq/=;
    try done.
  all: inst_w HW; inst_c HC; settle; eauto.
Qed.

Lemma queue_moves_under_mutex_witness :
  ∃ o, mover (LClient 0 0) = Some o ∧ mt_ about_to_push = Some o.
Proof.
  apply (queue_moves_under_mutex 1 None 1 about_to_push
           (after [LClient 0 0] about_to_push)).
  - apply reachable_after. vm_compute. reflexivity.
  - vm_compute. reflexivity.
  - vm_compute. discriminate.
Defined.

(** ** Failure modes *)

(** The containers are misused at one place only.  The data races on
    [working_], [allowNewTasks_] and [terminate_] aside, which are
    undefined behaviour of their own and which the transitions do not
    track, a statement of a pool is undefined exactly when it is the
    [front()] of l.204 on an empty queue: the next statement of a worker
    that stands at l.200 with [terminate_] clear and the queue empty,
    which then holds the mutex.  The accesses [working_[id_]] of l.196 and
    l.209 are always within the vector, and [pop()] at l.140 is never
    called on an empty queue. *)
Theorem container_misuse_only_at_front (n : nat)
    (logStream : option (list string)) (m : nat) (s : State) :
  reachable n logStream m s →
  (∀ l, step l s = Undefined →
     ∃ w th, l = LWorker w ∧ workers_ s !! w = Some th ∧
             wpc th = WCheckTerm ∧ mt_ s = Some (OWorker w) ∧
             tasks_ s = [] ∧ terminate_ s = false) ∧
  (∀ w th, workers_ s !! w = Some th → wpc th = WCheckTerm →
     tasks_ s = [] → terminate_ s = false →
     step (LWorker w) s = Undefined).
Proof.
  intros Hr. split.
  2:{ intros w th Hl Hpc Hq Ht.
      pose proof (check_term_cases w s th Hl Hpc) as H.
      by rewrite Hq, Ht in H. }
  intros l H. destruct (reachable_lock_ok _ _ _ _ Hr) as [HW HC].
  destruct (reachable_lengths _ _ _ _ Hr) as (Hn & Hn' & _).
  step_cases H; unfold logMessage in *; repeat case_match; simplify_eq/=;
    try done.
  all: try (match goal with E : workers_ _ !! _ = Some _ |- _ =>
              apply lookup_lt_Some in E end; lia).
  match goal with
  | E : workers_ s !! ?w = Some ?t, P : wpc ?t = WCheckTerm,
    B : terminate_ s && true = false |- _ =>
      exists w, t; rewrite andb_true_r in B; split_and!; try done;
      apply HW with t; [done|]; by rewrite P
  end.
Qed.

Lemma container_misuse_only_at_front_witness :
  reachable 1 None 1 (after late_notify (boot 1 None 1)) ∧
  step (LWorker 0) (after late_notify (boot 1 None 1)) = Undefined ∧
  ∃ w th, LWorker 0 = LWorker w ∧
          workers_ (after late_notify (boot 1 None 1)) !! w = Some th ∧
          wpc th = WCheckTerm ∧
          mt_ (after late_notify (boot 1 None 1)) = Some (OWorker w) ∧
          tasks_ (after late_notify (boot 1 None 1)) = [] ∧
          terminate_ (after late_notify (boot 1 None 1)) = false.
Proof.
  assert (R : reachable 1 None 1 (after late_notify (boot 1 None 1)))
    by (apply reachable_after; vm_compute; reflexivity).
  split; [exact R|]. split; [vm_compute; reflexivity|].
  apply (container_misuse_only_at_front 1 None 1 _ R).
  vm_compute. reflexivity.
Defined.

(** ** Where the tasks are *)

Lemma popped_split (ps : list (Task * bool)) :
  ps.*1 ≡ₚ
  (filter (λ e, e.2 = true) ps).*1 ++ (filter (λ e, e.2 = false) ps).*1.
Proof.
  induction ps as [|[t [|]] ps IH]; [done|..].
  - rewrite filter_cons_True, filter_cons_False by (simpl; done).
    simpl. by rewrite IH.
  - rewrite filter_cons_False, filter_cons_True by (simpl; done).
    simpl. rewrite IH. by rewrite Permutation_middle.
Qed.

Lemma held_length ws : length (ws ≫= held) ≤ length ws.
Proof.
  induction ws as [|th ws IH]; [done|].
  rewrite bind_cons, length_app. unfold held at 1. simpl.
  destruct (wpc th); simpl; lia.
Qed.

(** No task is lost and none is run twice.  In every state a pool can
    reach, the tasks that were pushed are, as a collection with
    multiplicities, the tasks whose bodies were run, the tasks the
    workers have in their hands, the tasks [waitUntilComplete] threw away
    and the tasks still queued; and the workers hold no more tasks than
    there are workers. *)
Theorem no_task_lost_or_duplicated (n : nat) (logStream : option (list string))
    (m : nat) (s : State) :
  reachable n logStream m s →
  pushed s ≡ₚ (executed s).*2 ++ in_hand s ++ discarded s ++ tasks_ s ∧
  length (in_hand s) ≤ n.
Proof.
  intros Hr. split.
  - pose proof (reachable_fifo _ _ _ _ Hr) as Hf.
    pose proof (reachable_accounted _ _ _ _ Hr) as Ha.
    unfold fifo in Hf. unfold accounted in Ha.
    rewrite Hf, (popped_split (popped s)).
    fold (taken s). fold (discarded s).
    rewrite <- Ha. by rewrite <- !app_assoc.
  - destruct (reachable_lengths _ _ _ _ Hr) as (<- & _).
    apply held_length.
Qed.

Lemma no_task_lost_or_duplicated_witness :
  pushed backlog_pool_destroyed ≡ₚ
    (executed backlog_pool_destroyed).*2 ++ in_hand backlog_pool_destroyed ++
    discarded backlog_pool_destroyed ++ tasks_ backlog_pool_destroyed ∧
  length (in_hand backlog_pool_destroyed) ≤ 1.
Proof.
  apply (no_task_lost_or_duplicated 1 None 1).
  apply (reachable_run 1 None 1 destroy_with_backlog backlog_pool).
  - apply reachable_after. vm_compute. reflexivity.
  - apply run_after. vm_compute. reflexivity.
Defined.

Lemma no_thread_no_run logStream m s :
  reachable 0 logStream m s →
  workers_ s = [] ∧ executed s = [] ∧ Forall (λ e, e.2 = false) (popped s).
Proof.
  revert s. apply reachable_ind; [by rewrite boot_spec|].
  intros l s s' (Hw & He & Hp) H.
  step_cases H; unfold logMessage in *; repeat case_match; simplify_eq/=;
    try done.
  all: try (match goal with E : workers_ _ !! _ = Some _ |- _ =>
              by rewrite Hw in E end).
  all: try (by rewrite Hw).
  split_and!; try done. apply Forall_app. split; [done|]. by constructor.
Qed.

Lemma filter_all {A} (P : A → Prop) `{!∀ x, Decision (P x)} (l : list A) :
  Forall P l → filter P l = l.
Proof.
  induction 1 as [|x l Hx Hl IH]; [done|].
  by rewrite filter_cons_True, IH.
Qed.

Lemma filter_none {A} (P : A → Prop) `{!∀ x, Decision (P x)} (l : list A) :
  Forall (λ x, ¬ P x) l → filter P l = [].
Proof.
  induction 1 as [|x l Hx Hl IH]; [done|].
  by rewrite filter_cons_False, IH.
Qed.

(** A pool constructed with [nThreads = 0] accepts tasks and never runs
    one: no body is executed, no task is taken from the queue by a
    worker, and what was pushed is what [waitUntilComplete] threw away
    followed by what is still queued. *)
Theorem pool_without_threads_runs_nothing (logStream : option (list string))
    (m : nat) (s : State) :
  reachable 0 logStream m s →
  executed s = [] ∧ taken s = [] ∧ pushed s = discarded s ++ tasks_ s.
Proof.
  intros Hr. destruct (no_thread_no_run _ _ _ Hr) as (Hw & He & Hp).
  pose proof (reachable_fifo _ _ _ _ Hr) as Hf. unfold fifo in Hf.
  unfold taken, discarded. split; [done|].
  rewrite filter_none.
  2:{ eapply Forall_impl; [exact Hp|]. intros [t b]; simpl. by intros ->. }
  split; [done|]. by rewrite filter_all.
Qed.

Lemma pool_without_threads_runs_nothing_witness :
  executed threadless_pool = [] ∧ taken threadless_pool = [] ∧
  pushed threadless_pool = discarded threadless_pool ++ tasks_ threadless_pool.
Proof.
  apply (pool_without_threads_runs_nothing None 1).
  apply reachable_after. vm_compute. reflexivity.
Defined.

(** ** Workers that have left *)

Lemma exit_ok_step l s s' : exit_ok s → step l s = Ok s' → exit_ok s'.
Proof.
  intros HW H.
  step_cases H; unfold logMessage in *; repeat case_match; simplify_eq/=.
  all: intros wx thx Hlx Hpx; simpl in *; lookup_cases.
  all: try (by eapply HW).
  all: try (by destruct (terminate_ s)).
  all: inst_w HW; settle.
  all: repeat case_match; simplify_eq/=; settle.
Qed.

Lemma exited_step l s s' w th :
  step l s = Ok s' → workers_ s !! w = Some th → wpc th = WExited →
  ∃ th', workers_ s' !! w = Some th' ∧ wpc th' = WExited.
Proof.
  intros H Hl Hpc.
  step_cases H; unfold logMessage in *; repeat case_match; simplify_eq/=;
    eauto.
  all: try (rewrite list_lookup_fmap, Hl; simpl; unfold waiting;
            rewrite Hpc; eauto).
  all: match goal with
       | |- context [<[?i := _]> _ !! ?j] =>
           destruct (decide (j = i)) as [->|];
           [rewrite list_lookup_insert_eq by (by eapply lookup_lt_Some)
           |rewrite list_lookup_insert_ne by done]
       end; eauto.
  all: simplify_eq/=; settle.
  all: by rewrite Hpc in *.
Qed.

(** A worker thread leaves its loop only after [terminate_] was set, and
    nothing in the source brings it back: once a worker has returned,
    [terminate_] is set and stays set, and the worker stays returned
    whatever is called afterwards. *)
Theorem exited_worker_stays_exited (n : nat) (logStream : option (list string))
    (m : nat) (s s' : State) (tr : list label) (w : nat) (th : thread) :
  reachable n logStream m s →
  workers_ s !! w = Some th → wpc th = WExited →
  run tr s = Ok s' →
  terminate_ s = true ∧ terminate_ s' = true ∧
  ∃ th', workers_ s' !! w = Some th' ∧ wpc th' = WExited.
Proof.
  intros Hr Hl Hpc Hrun.
  assert (∀ x, reachable n logStream m x → exit_ok x) as HE.
  { apply reachable_ind; [|by eauto using exit_ok_step].
    rewrite boot_spec. intros w0 th0 Hl0 Hp0. simpl in *.
    apply lookup_replicate in Hl0 as [-> _]. done. }
  assert (∃ th', workers_ s' !! w = Some th' ∧ wpc th' = WExited)
    as (th' & Hl' & Hpc').
  { eapply (run_preserves (λ _, True)
              (λ x, ∃ th', workers_ x !! w = Some th' ∧ wpc th' = WExited));
      [|by apply Forall_true| |exact Hrun]; [|by eauto].
    intros l s1 s2 _ (th1 & Hl1 & Hp1) Hst. by eapply exited_step. }
  split_and!; [by eapply (HE s)|..|by eauto].
  eapply (HE s'); [by eapply reachable_run|done..].
Qed.

Lemma exited_worker_stays_exited_witness :
  terminate_ idle_pool_retired = true ∧
  terminate_ (after rejected_submit idle_pool_retired) = true ∧
  ∃ th', workers_ (after rejected_submit idle_pool_retired) !! 0 = Some th' ∧
         wpc th' = WExited.
Proof.
  apply (exited_worker_stays_exited 1 None 1 idle_pool_retired _
           rejected_submit 0 joined).
  - apply (reachable_run 1 None 1 retire_idle_pool idle_pool_entered).
    + apply reachable_after. vm_compute. reflexivity.
    + apply run_after. vm_compute. reflexivity.
  - reflexivity.
  - reflexivity.
  - apply run_after. vm_compute. reflexivity.
Defined.

(** ** Calls that do not return *)

Lemma joining_sleeper_step c k l s s' :
  continues l = true → joining_sleeper c k s → step l s = Ok s' →
  joining_sleeper c k s'.
Proof.
  intros Hl (Hc & Hw & HO) H.
  destruct l as [w| |?|c0 pick]; try done; simpl in H.
  - unfold worker_step in H.
    destruct (decide (w = k)) as [->|Hne].
    { by rewrite Hw in H. }
    assert (∀ x, <[w := x]> (workers_ s) !! k = Some asleep) as Hk
      by (intros x; by rewrite list_lookup_insert_ne).
    unfold lock in H.
    repeat case_match; simplify_eq/=; unfold logMessage; repeat case_match;
      split_and!; simpl; eauto.
  - unfold client_step in H.
    destruct (decide (c0 = c)) as [->|Hne].
    { rewrite Hc in H. simpl in H. by rewrite Hw in H. }
    destruct (callers s !! c0) as [pc0|] eqn:E; [|done].
    by destruct (HO _ _ E Hne) as [-> | ->].
Qed.


(** Not every terminating call returns.  When the caller stands at the
    [join] of l.161 for a worker that is inside [cv_.wait], and nobody
    else is inside a member function, the call never returns unless the
    wait ends spuriously or another call is started: whatever the threads
    do, the caller stays at the [join] and the worker stays in its wait,
    both unable to move.  [terminate_] is set and [notify_all] is issued
    without the mutex (l.157-158), so a worker can enter its wait after
    both. *)
Theorem join_waits_forever (s : State) (c k : nat)
    (tr : list label) (s' : State) :
  callers s !! c = Some (D_Join k) →
  workers_ s !! k = Some asleep →
  others_idle c s →
  Forall (λ l, continues l = true) tr →
  run tr s = Ok s' →
  callers s' !! c = Some (D_Join k) ∧
  workers_ s' !! k = Some asleep ∧
  (∀ pick, step (LClient c pick) s' = Blocked) ∧
  step (LWorker k) s' = Blocked.
Proof.
  intros Hc Hw HO HQ Hrun.
  assert (joining_sleeper c k s') as (Hc' & Hw' & _).
  { eapply (run_preserves (λ l, continues l = true) (joining_sleeper c k));
      [|exact HQ| |exact Hrun]; [|done].
    intros l x y Hl HJ Hstep. by eapply joining_sleeper_step. }
  split_and!; try done.
  - intros pick. simpl. unfold client_step. rewrite Hc'. simpl. by rewrite Hw'.
  - simpl. unfold worker_step. by rewrite Hw'.
Qed.

Lemma join_waits_forever_witness :
  reachable 2 None 1 sleeper_joined ∧
  terminate_ sleeper_joined = true ∧
  callers (after second_falls_asleep sleeper_joined) !! 0 = Some (D_Join 0) ∧
  workers_ (after second_falls_asleep sleeper_joined) = [asleep; asleep] ∧
  (∀ pick, step (LClient 0 pick) (after second_falls_asleep sleeper_joined)
           = Blocked) ∧
  step (LWorker 0) (after second_falls_asleep sleeper_joined) = Blocked.
Proof.
  split; [apply reachable_after; vm_compute; reflexivity|].
  split; [reflexivity|].
  destruct (join_waits_forever sleeper_joined 0 0 second_falls_asleep
              (after second_falls_asleep sleeper_joined))
    as (Hc & _ & Hb1 & Hb2).
  - reflexivity.
  - reflexivity.
  - intros [|c'] pc Hl Hne; [done|]. vm_compute in Hl. discriminate.
  - repeat constructor.
  - apply run_after. vm_compute. reflexivity.
  - split; [exact Hc|]. split; [reflexivity|]. split; [exact Hb1|exact Hb2].
Defined.

Lemma joining_sleeper_run c k tr s s' :
  Forall (λ l, continues l = true) tr → joining_sleeper c k s →
  run tr s = Ok s' → joining_sleeper c k s'.
Proof.
  intros HQ HJ Hrun.
  eapply (run_preserves (λ l, continues l = true) (joining_sleeper c k));
    [|exact HQ|exact HJ|exact Hrun].
  intros l x y Hl HJx Hstep. by eapply joining_sleeper_step.
Qed.

(** C6 fails on the source: destruction does not always come to an end.
    A pool of one is destroyed before its worker has reached [cv_.wait]
    ([destroy_fresh_pool], no spurious wake-up): the destructor sets
    [terminate_] and issues [notify_all] (l.157-158) while nobody waits;
    the worker then finds the queue empty and waits at l.197 without
    looking at [terminate_].  The destructor stands at the [join] of
    l.161, and whatever statements the threads execute from there, it
    stays at the [join], unable to move, and the worker thread stays in
    its wait, neither terminated nor joined.  And when the destructor
    meets a worker that an [addTask] has woken
    ([destroy_meets_woken_worker]), the worker takes the mutex after the
    queue was emptied and before [terminate_] is set, and calls [front()]
    on the empty queue. *)
Theorem C6_destruction_hangs :
  let s := after destroy_fresh_pool (boot 1 None 1) in
  forallb genuine destroy_fresh_pool = true ∧
  run destroy_fresh_pool (boot 1 None 1) = Ok s ∧
  step (LCall 0 Destroy) (boot 1 None 1)
    = step (LCall 0 (WaitUntilComplete false true true)) (boot 1 None 1) ∧
  callers s = [D_Join 0] ∧
  workers_ s = [asleep] ∧
  terminate_ s = true ∧
  (∀ tr s', Forall (λ l, continues l = true) tr → run tr s = Ok s' →
     callers s' !! 0 = Some (D_Join 0) ∧
     workers_ s' !! 0 = Some asleep ∧
     (∀ pick, step (LClient 0 pick) s' = Blocked) ∧
     step (LWorker 0) s' = Blocked) ∧
  forallb genuine destroy_meets_woken_worker = true ∧
  completes destroy_meets_woken_worker backlog_pool = true ∧
  terminate_ (after destroy_meets_woken_worker backlog_pool) = false ∧
  tasks_ (after destroy_meets_woken_worker backlog_pool) = [] ∧
  step (LWorker 0) (after destroy_meets_woken_worker backlog_pool) = Undefined.
Proof.
  split_and!; try (vm_compute; reflexivity).
  intros tr s' HQ Hrun.
  assert (joining_sleeper 0 0 (after destroy_fresh_pool (boot 1 None 1)))
    as HJ.
  { split_and!; [reflexivity..|].
    intros [|c'] pc Hl Hne; [done|]. vm_compute in Hl. discriminate. }
  destruct (joining_sleeper_run 0 0 tr _ s' HQ HJ Hrun) as (Hc & Hw & _).
  split_and!; try done.
  - intros pick. simpl. unfold client_step. rewrite Hc. simpl. by rewrite Hw.
  - simpl. unfold worker_step. by rewrite Hw.
Qed.

(** ** The log *)

Lemma log_entry_mono s s' e :
  (∀ x, x ∈ executed s → x ∈ executed s') → log_entry s e → log_entry s' e.
Proof.
  intros Hsub [->|(w & t & what & Hin & Hb & ->)]; [by left|right].
  exists w, t, what. split_and!; try done. by apply Hsub.
Qed.

Lemma log_grown_step logStream l s s' :
  log_grown logStream s → step l s = Ok s' → log_grown logStream s'.
Proof.
  intros Hinv H. unfold log_grown in *.
  destruct logStream as [out|].
  - destruct Hinv as (extra & Hlog & Hall).
    step_cases H; unfold logMessage in *; repeat case_match; simplify_eq/=.
    all: lazymatch goal with
         | |- context [c_str addTask_error] =>
             exists (extra ++ [c_str addTask_error]);
             split; [by rewrite app_assoc|];
             apply Forall_app; split; [done|];
             constructor; [left; reflexivity|constructor]
         | |- context [c_str (worker_error ?w ?what)] =>
             exists (extra ++ [c_str (worker_error w what)]);
             split; [by rewrite app_assoc|];
             apply Forall_app; split;
             [ eapply Forall_impl; [exact Hall|]; intros e;
               apply log_entry_mono; simpl; intros x Hx;
               rewrite elem_of_app; by left
             | constructor; [|constructor]; right; eexists w, _, what;
               split_and!; [|eassumption|reflexivity]; simpl;
               rewrite elem_of_app, list_elem_of_singleton; by right ]
         | |- _ =>
             exists extra; split; [assumption|];
             eapply Forall_impl; [exact Hall|]; intros e;
             apply log_entry_mono; simpl; intros x Hx;
             rewrite ?elem_of_app; auto
         end.
  - step_cases H; unfold logMessage in *; repeat case_match; simplify_eq/=;
      congruence.
Qed.

(** What the pool writes to its log.  A pool constructed with a null
    [logStream] never has a stream.  With a stream, what was written
    before stays, and every text written by the pool is the error message
    of [addTask] on a closed pool (l.104, l.111) or the message of l.213-216
    for a task that was run and threw a [std::exception], with the id of
    the worker that ran it and its [what()]. *)
Theorem log_holds_only_error_messages (n : nat)
    (logStream : option (list string)) (m : nat) (s : State) :
  reachable n logStream m s → log_grown logStream s.
Proof.
  revert s. apply reachable_ind; [|by eauto using log_grown_step].
  rewrite boot_spec. destruct logStream as [out|]; simpl; [|done].
  exists []. by rewrite app_nil_r.
Qed.

Lemma log_holds_only_error_messages_witness :
  log_grown (Some []) (after fault_then_plain (boot 1 (Some []) 1)).
Proof.
  apply (log_holds_only_error_messages 1 (Some []) 1).
  apply reachable_after. vm_compute. reflexivity.
Defined.

Lemma c_str_split msg :
  ∃ rest, msg = c_str msg +:+ rest ∧
          (rest = EmptyString ∨ ∃ r, rest = String NUL r).
Proof.
  induction msg as [|a msg (rest & IH & Hr)]; [by exists EmptyString; auto|].
  unfold c_str; fold c_str. destruct (decide (a = NUL)) as [->|].
  - exists (String NUL msg). eauto.
  - exists rest. split; [|done].
    change (String a msg = String a (c_str msg +:+ rest)). by f_equal.
Qed.

Lemma c_str_no_nul msg a b : c_str msg ≠ a +:+ String NUL b.
Proof.
  revert a. induction msg as [|x msg IH]; intros a.
  - unfold c_str. by destruct a.
  - unfold c_str; fold c_str. destruct (decide (x = NUL)) as [->|Hx].
    + by destruct a.
    + destruct a as [|y a]; simpl; [by intros [= ? ?]|].
      intros [= -> H]. by eapply IH.
Qed.

(** [logMessage] hands [msg.c_str()] to the stream (l.178), so what is
    written is the message up to its first NUL: the text appended to the
    log is a prefix of the message, contains no NUL, and what it leaves
    out is nothing or starts with a NUL. *)
Theorem logged_text_stops_at_nul (msg : string) (s : State)
    (out : list string) :
  log_ s = Some out →
  ∃ text rest,
    logMessage msg s = set_log (Some (out ++ [text])) s ∧
    msg = text +:+ rest ∧
    (∀ a b, text ≠ a +:+ String NUL b) ∧
    (rest = EmptyString ∨ ∃ r, rest = String NUL r).
Proof.
  intros Hl. destruct (c_str_split msg) as (rest & Hm & Hr).
  exists (c_str msg), rest. unfold logMessage. rewrite Hl.
  split_and!; try done. apply c_str_no_nul.
Qed.

Lemma logged_text_stops_at_nul_witness :
  ∃ text rest,
    logMessage cut_message (boot 1 (Some []) 1) =
    set_log (Some ([] ++ [text])) (boot 1 (Some []) 1) ∧
    cut_message = text +:+ rest ∧
    (∀ a b, text ≠ a +:+ String NUL b) ∧
    (rest = EmptyString ∨ ∃ r, rest = String NUL r).
Proof.
  apply (logged_text_stops_at_nul _ (boot 1 (Some []) 1) []). reflexivity.
Defined.

(** ** Intake while a caller waits *)

Lemma sweeping_at_outsider l s s' pc :
  outsider l s → step l s = Ok s' → sweeping_at pc s → sweeping_at pc s'.
Proof.
  intros HO H. pose proof (outsider_allow _ _ _ HO H) as Ha.
  destruct pc as [| | | | | | |x y [|]|x y [|]|[|]|[|]|[|]|[|]|[|]| | | | | |];
    simpl; rewrite ?Ha; done.
Qed.

Lemma sweeping_own c pick s s' :
  sweeping c s → step (LClient c pick) s = Ok s' → sweeping c s'.
Proof.
  intros (pc & E & Hsw) H.
  assert (c < length (callers s)) by (by eapply lookup_lt_Some).
  simpl in H. unfold client_step in H. rewrite E in H.
  destruct pc as [| | | | | | |x y [|]|x y [|]|[|]|[|]|[|]|[|]|[|]| | | | | |];
    simpl in Hsw; try done.
  all: cbn [in_drain addTask waitUntilComplete] in H;
       unfold lock, after_queue in H; repeat case_match; simplify_eq/=.
  all: eexists; (split; [by apply list_lookup_insert_eq|]); simpl; try done.
  all: try (by destruct x, y).
  by destruct x.
Qed.

Lemma sweeping_step c l s s' :
  others_submit c s → sweeping c s →
  quiet c l = true → step l s = Ok s' → sweeping c s'.
Proof.
  intros HO HSw HQ H.
  destruct (moved_by c l) eqn:Hm.
  - destruct l as [w|w|c0 op|c0 pick]; simpl in Hm; try done;
      apply bool_decide_eq_true in Hm as ->.
    + simpl in HQ. by rewrite bool_decide_eq_true_2 in HQ.
    + by eapply sweeping_own.
  - destruct HSw as (pc & E & Hsw).
    exists pc. split; [by rewrite (step_not_by _ _ _ _ Hm H)|].
    destruct (quiet_outsider _ _ _ HO HQ Hm) as [Hout|(c0 & pick & -> & Hn)].
    + by eapply sweeping_at_outsider.
    + simpl in H. unfold client_step in H. by rewrite Hn in H.
Qed.

(** A [waitUntilComplete] that does not terminate the pool closes intake
    while it waits for the running tasks, whatever [allowNewTasks] it was
    given: l.148 clears [allowNewTasks_] when the queue is found empty.
    While the caller reads the flags (l.165-166) and until it has executed
    l.169, [allowNewTasks_] is clear and every [addTask] that reaches one
    of its two tests is turned away with the error message, its task
    dropped.  No other caller is inside [waitUntilComplete] during the
    call. *)
Theorem intake_closed_while_polling (s0 : State) (c : nat) (a b : bool)
    (tr : list label) (s1 : State) (pc : client_pc) :
  callers s0 !! c = Some (D_Entry a b false) →
  others_submit c s0 →
  Forall (λ l, quiet c l = true) tr →
  run tr s0 = Ok s1 →
  callers s1 !! c = Some pc → polling pc = true →
  allowNewTasks_ s1 = false ∧
  (∀ c' t pick, callers s1 !! c' = Some (A_Check1 t) →
     step (LClient c' pick) s1 =
     Ok (at_pc c' CIdle (logMessage addTask_error s1))) ∧
  (∀ c' t pick, callers s1 !! c' = Some (A_Check2 t) →
     step (LClient c' pick) s1 =
     Ok (at_pc c' CIdle (unlock (logMessage addTask_error s1)))).
Proof.
  intros Hc HO HQ Hrun Hpc Hpoll.
  assert (others_submit c s1 ∧ sweeping c s1) as [_ (pc' & E & Hsw)].
  { eapply (run_preserves (λ l, quiet c l = true)
              (λ x, others_submit c x ∧ sweeping c x));
      [|exact HQ| |exact Hrun].
    - intros l x y Hl [? ?] Hstep. split.
      + by eapply others_submit_step.
      + by eapply sweeping_step.
    - split; [done|]. by exists (D_Entry a b false). }
  simplify_eq.
  assert (allowNewTasks_ s1 = false) as Ha by (by destruct pc).
  split; [done|].
  split; intros c' t pick E'; simpl; unfold client_step; rewrite E'; simpl;
    by rewrite Ha.
Qed.

Lemma intake_closed_while_polling_witness :
  callers (after finds_queue_empty idle_pool_waiting) !! 0 = Some (D_Poll 0) ∧
  allowNewTasks_ (after finds_queue_empty idle_pool_waiting) = false.
Proof.
  split; [reflexivity|].
  apply (intake_closed_while_polling idle_pool_waiting 0 true false
           finds_queue_empty _ (D_Poll 0)).
  - reflexivity.
  - intros [|c'] pc Hl Hne; [done|]. vm_compute in Hl. discriminate.
  - repeat constructor.
  - apply run_after. vm_compute. reflexivity.
  - reflexivity.
  - reflexivity.
Defined.

(** ** Whole calls on a pool at rest *)

(** A task given to a sleeping worker is run.  On a pool whose intake is
    open, whose mutex is free and whose queue is empty, a caller runs
    [addTask(t)] from beginning to end, for a task whose body returns or
    throws a [std::exception], its [notify_one] waking a worker that
    waits; the worker takes the mutex again, finds [t] at the front,
    takes it and runs its body.  Afterwards [t] is the last task pushed
    and the last one run, the queue is empty again, the mutex is free,
    the caller is back outside and the worker at the top of its loop. *)
Theorem submitted_task_is_run (n : nat) (logStream : option (list string))
    (m : nat) (s : State) (c w : nat) (th : thread) (t : Task) :
  reachable n logStream m s →
  callers s !! c = Some CIdle →
  workers_ s !! w = Some th → wpc th = WWaiting →
  allowNewTasks_ s = true → mt_ s = None → tasks_ s = [] →
  body t ≠ ThrowsOther →
  ∃ s', run (serves c w t) s = Ok s' ∧
        pushed s' = pushed s ++ [t] ∧
        executed s' = executed s ++ [(w, t)] ∧
        tasks_ s' = [] ∧ mt_ s' = None ∧
        callers s' !! c = Some CIdle ∧
        workers_ s' !! w = Some {| wpc := WTop; joinable := joinable th |}.
Proof.
  intros Hr Hc Hw Hpc Ha Hm Hq Hb.
  destruct (reachable_lengths _ _ _ _ Hr) as (Hn & Hn' & _).
  assert (w < length (workers_ s)) by (by eapply lookup_lt_Some).
  assert (c < length (callers s)) by (by eapply lookup_lt_Some).
  assert (w < length (working_ s)) by lia.
  assert (existsb waiting (workers_ s) = true) as Hex.
  { apply existsb_exists. exists th. split; [|by unfold waiting; rewrite Hpc].
    apply list_elem_of_In. by eapply list_elem_of_lookup_2. }
  unfold serves. cbn [replicate app].
  erewrite run_cons_ok; [|simpl; unfold call_step; by rewrite Hc].
  erewrite run_cons_ok; [|unfold step, client_step; look; by rewrite Ha].
  erewrite run_cons_ok;
    [|unfold step, client_step; look; unfold lock; simpl; by rewrite Hm].
  erewrite run_cons_ok; [|unfold step, client_step; look; by rewrite Ha].
  erewrite run_cons_ok; [|unfold step, client_step; look; done].
  erewrite run_cons_ok.
  2:{ unfold step, client_step; look. unfold notify_one.
      cbn [workers_ at_pc set_callers unlock set_mt note_push set_tasks].
      rewrite Hex, Hw. unfold waiting. rewrite Hpc. done. }
  erewrite run_cons_ok; [|unfold step, worker_step; look; unfold lock; done].
  erewrite run_cons_ok.
  2:{ unfold step, worker_step; look. rewrite Hq. simpl.
      rewrite andb_false_r. done. }
  erewrite run_cons_ok.
  2:{ unfold step, worker_step; look.
      rewrite decide_True by (rewrite ?length_insert; done). done. }
  unfold run, step, worker_step; look.
  destruct (body t) eqn:E; [| |done]; eexists; (split; [reflexivity|]);
    unfold logMessage; simpl; repeat case_match; look; done.
Qed.

Lemma submitted_task_is_run_witness :
  ∃ s', run (serves 0 0 (plain 1)) sleeping_pool = Ok s' ∧
        pushed s' = pushed sleeping_pool ++ [plain 1] ∧
        executed s' = executed sleeping_pool ++ [(0, plain 1)] ∧
        tasks_ s' = [] ∧ mt_ s' = None ∧
        callers s' !! 0 = Some CIdle ∧
        workers_ s' !! 0 = Some {| wpc := WTop; joinable := joinable asleep |}.
Proof.
  apply (submitted_task_is_run 1 None 1 sleeping_pool 0 0 asleep (plain 1)).
  - apply reachable_after. vm_compute. reflexivity.
  - reflexivity.
  - reflexivity.
  - reflexivity.
  - reflexivity.
  - reflexivity.
  - reflexivity.
  - discriminate.
Defined.

(** One sweep of l.165 over flags that are all clear. *)
Lemma poll_loop c pick j : ∀ k s,
  callers s !! c = Some (D_Poll k) →
  Forall (λ b, b = false) (working_ s) →
  k + j = length (working_ s) →
  run (replicate j (LClient c pick)) s =
  Ok (at_pc c (D_Poll (length (working_ s))) s).
Proof.
  induction j as [|j IH]; intros k s Hc Hall Hk; simpl replicate.
  - simpl. f_equal. rewrite Nat.add_0_r in Hk. subst k.
    apply State_eq; simpl; try done. by rewrite list_insert_id.
  - assert (c < length (callers s)) by (by eapply lookup_lt_Some).
    destruct (working_ s !! k) as [b|] eqn:E.
    2:{ apply lookup_ge_None in E. lia. }
    assert (b = false) as -> by (by eapply (Forall_lookup_1 _ _ _ _ Hall E)).
    erewrite run_cons_ok.
    2:{ unfold step, client_step. rewrite Hc. simpl. by rewrite E. }
    rewrite (IH (S k)); simpl; [|by look|done|lia].
    f_equal. apply State_eq; simpl; try done.
    by rewrite list_insert_insert_eq.
Qed.

(** On a pool at rest, [waitUntilComplete(a, false, false)] returns.  When
    the mutex is free, the queue is empty and every busy flag is clear, a
    caller that is left alone executes the call in [n + 6] statements,
    [a] being either value, and all it changes is [allowNewTasks_], which
    is set at the end whatever it was before. *)
Theorem drain_of_pool_at_rest_returns (n : nat)
    (logStream : option (list string)) (m : nat) (s : State) (c : nat)
    (a : bool) :
  reachable n logStream m s →
  callers s !! c = Some CIdle →
  mt_ s = None → tasks_ s = [] →
  Forall (λ b, b = false) (working_ s) →
  run (drains c a n) s = Ok (set_allow true s).
Proof.
  intros Hr Hc Hm Hq Hall.
  destruct (reachable_lengths _ _ _ _ Hr) as (_ & Hn & _).
  assert (c < length (callers s)) by (by eapply lookup_lt_Some).
  unfold drains. replace (n + 6) with (4 + (n + 2)) by lia.
  rewrite replicate_add. cbn [replicate app].
  erewrite run_cons_ok; [|simpl; unfold call_step; by rewrite Hc].
  erewrite run_cons_ok;
    [|unfold step, client_step; look; by rewrite andb_false_r].
  erewrite run_cons_ok; [|unfold step, client_step; look; done].
  erewrite run_cons_ok;
    [|unfold step, client_step; look; unfold lock; simpl; by rewrite Hm].
  erewrite run_cons_ok; [|unfold step, client_step; look; by rewrite Hq].
  rewrite replicate_add, run_app.
  erewrite (poll_loop c 0 n 0); [|by look|done|simpl; lia].
  cbn [replicate]. simpl (working_ _). rewrite Hn.
  erewrite run_cons_ok.
  2:{ unfold step, client_step; look.
      rewrite (proj2 (lookup_ge_None _ _)) by (simpl; lia). done. }
  erewrite run_cons_ok; [|unfold step, client_step; look; done].
  cbn [run]. f_equal. apply State_eq; simpl; try done.
  by rewrite !list_insert_insert_eq, list_insert_id.
Qed.

Lemma drain_of_pool_at_rest_returns_witness :
  run (drains 0 true 1) sleeping_pool = Ok (set_allow true sleeping_pool).
Proof.
  apply (drain_of_pool_at_rest_returns 1 None 1 sleeping_pool 0 true).
  - apply reachable_after. vm_compute. reflexivity.
  - reflexivity.
  - reflexivity.
  - reflexivity.
  - repeat constructor.
Defined.

Lemma lookup_middle {A} (x y : A) k j :
  (replicate k x ++ replicate (S j) y) !! k = Some y.
Proof.
  rewrite lookup_app_r by (by rewrite length_replicate).
  by rewrite length_replicate, Nat.sub_diag.
Qed.

Lemma insert_middle {A} (x y z : A) k j :
  <[k := z]> (replicate k x ++ replicate (S j) y) =
  replicate k x ++ z :: replicate j y.
Proof.
  rewrite insert_app_r_alt by (by rewrite length_replicate).
  by rewrite length_replicate, Nat.sub_diag.
Qed.

Lemma replicate_snoc {A} (x : A) k l :
  replicate k x ++ x :: l = replicate (S k) x ++ l.
Proof. induction k as [|k IH]; [done|]. simpl. by rewrite IH. Qed.

(** Woken workers that find [terminate_] set and the queue empty leave
    their loops one after the other. *)
Lemma workers_exit j : ∀ k s,
  workers_ s = replicate k gone ++ replicate j woken →
  mt_ s = None → terminate_ s = true → tasks_ s = [] →
  run (all_exit k j) s = Ok (set_workers (replicate (k + j) gone) s).
Proof.
  induction j as [|j IH]; intros k s Hw Hm Ht Hq.
  - simpl. rewrite Nat.add_0_r. simpl in Hw. rewrite app_nil_r in Hw.
    f_equal. by apply State_eq.
  - unfold all_exit. cbn [seq]. rewrite bind_cons. cbn [app].
    fold (all_exit (S k) j).
    erewrite run_cons_ok.
    2:{ unfold step, worker_step. rewrite Hw, lookup_middle. simpl.
        unfold lock. by rewrite Hm. }
    erewrite run_cons_ok.
    2:{ unfold step, worker_step. simpl. rewrite Hw, insert_middle.
        rewrite list_lookup_middle by (by rewrite length_replicate).
        simpl. by rewrite Ht, Hq. }
    rewrite IH; simpl; try done.
    + f_equal. apply State_eq; simpl; try done.
      by replace (k + S j) with (S (k + j)) by lia.
    + rewrite Hw, list_insert_insert_eq, insert_middle.
      by rewrite replicate_snoc.
Qed.

(** The loop of l.159-162 over threads that have all returned. *)
Lemma join_loop c pick j : ∀ k s,
  workers_ s = replicate k joined ++ replicate j gone →
  callers s !! c = Some (D_Join k) →
  run (replicate (j + 1) (LClient c pick)) s =
  Ok (at_pc c CIdle (set_workers (replicate (k + j) joined) s)).
Proof.
  induction j as [|j IH]; intros k s Hw Hc;
    assert (c < length (callers s)) by (by eapply lookup_lt_Some).
  - simpl in Hw. rewrite app_nil_r in Hw.
    simpl. unfold client_step. rewrite Hc. simpl. rewrite Hw.
    rewrite (proj2 (lookup_ge_None _ _)) by (by rewrite length_replicate).
    rewrite Nat.add_0_r. f_equal. by apply State_eq.
  - cbn [Nat.add replicate].
    erewrite run_cons_ok.
    2:{ unfold step, client_step. rewrite Hc. simpl.
        by rewrite Hw, lookup_middle. }
    rewrite (IH (S k)); simpl.
    + f_equal. apply State_eq; simpl; try done.
      * by replace (k + S j) with (S (k + j)) by lia.
      * by rewrite list_insert_insert_eq.
    + change (gone :: replicate j gone) with (replicate (S j) gone).
      rewrite insert_middle. by rewrite replicate_snoc.
    + by look.
Qed.

(** On a sleeping pool, [waitUntilComplete(false, false, true)] returns.
    When every worker is inside [cv_.wait], the mutex is free and the
    queue is empty, the call closes intake, sets [terminate_] and wakes
    every worker; each worker leaves its loop, each thread is joined, and
    the call returns, having changed nothing else.  The pool may have any
    number of workers, none included. *)
Theorem terminate_of_sleeping_pool_returns (n : nat) (s : State) (c : nat) :
  workers_ s = replicate n asleep →
  callers s !! c = Some CIdle →
  mt_ s = None → tasks_ s = [] →
  run (retires c n) s =
  Ok (set_workers (replicate n joined)
        (set_terminate true (set_allow false s))).
Proof.
  intros Hw Hc Hm Hq.
  assert (c < length (callers s)) by (by eapply lookup_lt_Some).
  unfold retires. cbn [replicate app].
  erewrite run_cons_ok; [|simpl; unfold call_step; by rewrite Hc].
  erewrite run_cons_ok; [|unfold step, client_step; look; done].
  erewrite run_cons_ok; [|unfold step, client_step; look; done].
  erewrite run_cons_ok;
    [|unfold step, client_step; look; unfold lock; simpl; by rewrite Hm].
  erewrite run_cons_ok; [|unfold step, client_step; look; by rewrite Hq].
  erewrite run_cons_ok; [|unfold step, client_step; look; done].
  erewrite run_cons_ok; [|unfold step, client_step; look; done].
  rewrite run_app.
  rewrite (workers_exit n 0); simpl; try done.
  2:{ rewrite Hw, fmap_replicate. done. }
  rewrite (join_loop c 0 n 0); simpl; try done.
  2:{ by look. }
  f_equal. apply State_eq; simpl; try done.
  by rewrite !list_insert_insert_eq, list_insert_id.
Qed.

Lemma terminate_of_sleeping_pool_returns_witness :
  run (retires 0 1) sleeping_pool =
  Ok (set_workers (replicate 1 joined)
        (set_terminate true (set_allow false sleeping_pool))).
Proof.
  apply (terminate_of_sleeping_pool_returns 1 sleeping_pool 0).
  - reflexivity.
  - reflexivity.
  - reflexivity.
  - reflexivity.
Defined.

(** One round of the worker's loop on a queue that is not empty. *)
Lemma worker_takes_one w th t q s :
  workers_ s !! w = Some th → wpc th = WTop → mt_ s = None →
  tasks_ s = t :: q → w < length (working_ s) → body t ≠ ThrowsOther →
  ∃ s', run (replicate 5 (LWorker w)) s = Ok s' ∧
        tasks_ s' = q ∧
        executed s' = executed s ++ [(w, t)] ∧
        popped s' = popped s ++ [(t, true)] ∧
        pushed s' = pushed s ∧
        mt_ s' = None ∧
        working_ s' = <[w := true]> (working_ s) ∧
        workers_ s' =
          <[w := {| wpc := WTop; joinable := joinable th |}]> (workers_ s).
Proof.
  intros Hw Hpc Hm Hq Hlen Hb.
  assert (w < length (workers_ s)) by (by eapply lookup_lt_Some).
  cbn [replicate].
  erewrite run_cons_ok.
  2:{ unfold step, worker_step. rewrite Hw, Hpc. unfold lock. by rewrite Hm. }
  erewrite run_cons_ok; [|unfold step, worker_step; look; by rewrite Hq].
  erewrite run_cons_ok.
  2:{ unfold step, worker_step; look. rewrite Hq. simpl.
      by rewrite andb_false_r. }
  erewrite run_cons_ok.
  2:{ unfold step, worker_step; look.
      rewrite decide_True by (rewrite ?length_insert; done). done. }
  unfold run, step, worker_step; look.
  destruct (body t) eqn:E; [| |done]; eexists; (split; [reflexivity|]);
    unfold logMessage; simpl; repeat case_match; simpl;
    rewrite !list_insert_insert_eq; done.
Qed.

(** A worker that is left alone works off the queue, in order.  From the
    top of its loop, with the mutex free, the worker takes the tasks one
    by one from the front and runs each before it takes the next, five
    statements per task, whether or not [terminate_] is set; afterwards
    the queue is empty, the bodies were run in queue order by this
    worker, and the worker is back at the top of its loop with the mutex
    free.  No body throws anything but a [std::exception]. *)
Theorem worker_works_off_queue (q : list Task) :
  ∀ (s : State) (w : nat) (th : thread),
  workers_ s !! w = Some th → wpc th = WTop → mt_ s = None →
  tasks_ s = q → w < length (working_ s) →
  Forall (λ t, body t ≠ ThrowsOther) q →
  ∃ s', run (works_off w (length q)) s = Ok s' ∧
        tasks_ s' = [] ∧
        executed s' = executed s ++ ((λ t, (w, t)) <$> q) ∧
        popped s' = popped s ++ ((λ t, (t, true)) <$> q) ∧
        pushed s' = pushed s ∧
        mt_ s' = None ∧
        workers_ s' !! w = Some {| wpc := WTop; joinable := joinable th |}.
Proof.
  induction q as [|t q IH]; intros s w th Hw Hpc Hm Hq Hlen Hall.
  - exists s. simpl. rewrite !app_nil_r. split_and!; try done.
    rewrite Hw. f_equal. destruct th; simpl in *. by subst.
  - inversion_clear Hall as [|?? Hb Hall'].
    destruct (worker_takes_one w th t q s) as
      (s1 & Hrun1 & Hq1 & He1 & Hp1 & Hpu1 & Hm1 & Hwk1 & Hws1); try done.
    assert (w < length (workers_ s)) by (by eapply lookup_lt_Some).
    destruct (IH s1 w {| wpc := WTop; joinable := joinable th |})
      as (s2 & Hrun2 & Hq2 & He2 & Hp2 & Hpu2 & Hm2 & Hws2); try done.
    { rewrite Hws1. by rewrite list_lookup_insert_eq. }
    { rewrite Hwk1. by rewrite length_insert. }
    exists s2. split_and!; try done.
    + unfold works_off. simpl length.
      replace (5 * S (length q)) with (5 + 5 * length q) by lia.
      rewrite replicate_add, run_app, Hrun1. exact Hrun2.
    + rewrite He2, He1. simpl. by rewrite <- app_assoc.
    + rewrite Hp2, Hp1. simpl. by rewrite <- app_assoc.
    + congruence.
Qed.

Lemma worker_works_off_queue_witness :
  ∃ s', run (works_off 0 (length [plain 1; plain 2])) unserved_backlog = Ok s' ∧
        tasks_ s' = [] ∧
        executed s' =
          executed unserved_backlog ++ ((λ t, (0, t)) <$> [plain 1; plain 2]) ∧
        popped s' =
          popped unserved_backlog ++ ((λ t, (t, true)) <$> [plain 1; plain 2]) ∧
        pushed s' = pushed unserved_backlog ∧
        mt_ s' = None ∧
        workers_ s' !! 0 =
          Some {| wpc := WTop; joinable := joinable fresh_thread |}.
Proof.
  apply (worker_works_off_queue [plain 1; plain 2] unserved_backlog 0
           fresh_thread).
  - reflexivity.
  - reflexivity.
  - reflexivity.
  - reflexivity.
  - vm_compute. lia.
  - repeat constructor; discriminate.
Defined.

(** The loop of l.139-140 changes the queue and the record of what left
    it, and nothing else. *)
Lemma abandon_loop_frame c pick z q :
  ∀ s, tasks_ s = q → callers s !! c = Some (D_AbLoop z) →
  ∃ s', run (replicate (S (length q)) (LClient c pick)) s = Ok s' ∧
        tasks_ s' = [] ∧
        popped s' = popped s ++ ((λ t, (t, false)) <$> q) ∧
        callers s' = <[c := after_queue z]> (callers s) ∧
        log_ s' = log_ s ∧ workers_ s' = workers_ s ∧
        working_ s' = working_ s ∧ mt_ s' = None ∧
        allowNewTasks_ s' = allowNewTasks_ s ∧
        terminate_ s' = terminate_ s ∧ pushed s' = pushed s ∧
        executed s' = executed s.
Proof.
  induction q as [|t q IH]; intros s Hq Hc;
    assert (c < length (callers s)) by (by eapply lookup_lt_Some).
  - eexists. simpl. unfold client_step. rewrite Hc. simpl. rewrite Hq.
    split; [done|]. simpl. by rewrite app_nil_r.
  - destruct (IH (at_pc c (D_AbLoop z) (note_pop t false (set_tasks q s))))
      as (s' & Hrun & ? & Hpop & Hcs & ?); [done|by look|].
    exists s'. split_and!; try done; destruct_and?; try done.
    + change (replicate (S (length (t :: q))) (LClient c pick))
        with (LClient c pick :: replicate (S (length q)) (LClient c pick)).
      cbn [run step]. unfold client_step at 1. rewrite Hc.
      cbn [in_drain waitUntilComplete]. by rewrite Hq.
    + rewrite Hpop. simpl. by rewrite <- app_assoc.
    + rewrite Hcs. simpl. by rewrite list_insert_insert_eq.
Qed.

(** On a pool at rest, [waitUntilComplete(false, true, false)] throws the
    queue away and returns.  With the mutex free and every busy flag
    clear, a caller that is left alone pops every queued task without
    running any (l.139-140), finds no worker busy and returns; the queue
    is empty, the tasks are recorded as discarded in queue order, no body
    was run, [allowNewTasks_] is set, and nothing else has changed. *)
Theorem abandon_of_pool_at_rest_returns (n : nat)
    (logStream : option (list string)) (m : nat) (s : State) (c : nat) :
  reachable n logStream m s →
  callers s !! c = Some CIdle →
  mt_ s = None →
  Forall (λ b, b = false) (working_ s) →
  ∃ s', run (abandons c n (length (tasks_ s))) s = Ok s' ∧
        tasks_ s' = [] ∧
        popped s' = popped s ++ ((λ t, (t, false)) <$> tasks_ s) ∧
        executed s' = executed s ∧ pushed s' = pushed s ∧
        allowNewTasks_ s' = true ∧ terminate_ s' = terminate_ s ∧
        mt_ s' = None ∧ callers s' = callers s ∧
        workers_ s' = workers_ s ∧ working_ s' = working_ s ∧
        log_ s' = log_ s.
Proof.
  intros Hr Hc Hm Hall.
  destruct (reachable_lengths _ _ _ _ Hr) as (_ & Hn & _).
  assert (c < length (callers s)) by (by eapply lookup_lt_Some).
  unfold abandons.
  change (replicate 3 (LClient c 0))
    with [LClient c 0; LClient c 0; LClient c 0].
  cbn [app].
  erewrite run_cons_ok; [|simpl; unfold call_step; by rewrite Hc].
  erewrite run_cons_ok; [|unfold step, client_step; look; done].
  erewrite run_cons_ok; [|unfold step, client_step; look; done].
  erewrite run_cons_ok;
    [|unfold step, client_step; look; unfold lock; simpl; by rewrite Hm].
  rewrite run_app.
  match goal with |- context [run (replicate _ _) ?x] =>
    destruct (abandon_loop_frame c 0 false (tasks_ s) x)
      as (s1 & -> & Hq1 & Hp1 & Hc1 & Hl1 & Hws1 & Hwk1 & Hm1 & Ha1 & Ht1 &
          Hpu1 & He1); [done|by look|]
  end.
  simpl in Hp1, Hc1, Hl1, Hws1, Hwk1, Ha1, Ht1, Hpu1, He1.
  rewrite !list_insert_insert_eq in Hc1.
  assert (callers s1 !! c = Some (D_Poll 0)) as Hc1'
    by (rewrite Hc1; by apply list_lookup_insert_eq).
  assert (c < length (callers s1)) by (by eapply lookup_lt_Some).
  rewrite replicate_add, run_app.
  erewrite (poll_loop c 0 n 0);
    [| done | by rewrite Hwk1 | rewrite Hwk1; lia].
  rewrite Hwk1, Hn. cbn [replicate].
  erewrite run_cons_ok.
  2:{ unfold step, client_step; look.
      rewrite (proj2 (lookup_ge_None _ _)) by (rewrite Hwk1; lia). done. }
  erewrite run_cons_ok; [|unfold step, client_step; look; done].
  eexists. split; [reflexivity|]. simpl.
  split_and!; try done.
  rewrite Hc1, !list_insert_insert_eq. by rewrite list_insert_id.
Qed.

Lemma abandon_of_pool_at_rest_returns_witness :
  ∃ s', run (abandons 0 1 (length (tasks_ unserved_backlog))) unserved_backlog
        = Ok s' ∧
        tasks_ s' = [] ∧
        popped s' =
          popped unserved_backlog ++
          ((λ t, (t, false)) <$> tasks_ unserved_backlog) ∧
        executed s' = executed unserved_backlog ∧
        pushed s' = pushed unserved_backlog ∧
        allowNewTasks_ s' = true ∧
        terminate_ s' = terminate_ unserved_backlog ∧
        mt_ s' = None ∧ callers s' = callers unserved_backlog ∧
        workers_ s' = workers_ unserved_backlog ∧
        working_ s' = working_ unserved_backlog ∧
        log_ s' = log_ unserved_backlog.
Proof.
  apply (abandon_of_pool_at_rest_returns 1 None 1 unserved_backlog 0).
  - apply reachable_after. vm_compute. reflexivity.
  - reflexivity.
  - reflexivity.
  - repeat constructor.
Defined.

(** ** Before the first call *)

Lemma untouched_step w s :
  untouched s →
  step (LWorker w) s ≠ Undefined ∧ step (LWorker w) s ≠ Aborted ∧
  ∀ s', step (LWorker w) s = Ok s' → untouched s'.
Proof.
  intros (Hq & Hlen & Hall). simpl. unfold worker_step.
  destruct (workers_ s !! w) as [th|] eqn:E; [|done].
  pose proof (Forall_lookup_1 _ _ _ _ Hall E) as He.
  pose proof (lookup_lt_Some _ _ _ E) as Hlt.
  unfold early in He. unfold lock.
  destruct (wpc th) eqn:Hpc; try done; rewrite ?Hq;
    repeat case_match; simplify_eq/=; try done; try lia.
  all: split_and!; try done; intros s' [= <-]; split_and!; simpl;
    rewrite ?length_insert; try done.
  all: apply Forall_insert; [done|]; unfold early; simpl; done.
Qed.

Lemma untouched_run tr s :
  Forall (λ l, worker_label l = true) tr →
  Forall (λ l, genuine l = true) tr → untouched s →
  run tr s ≠ Undefined ∧ run tr s ≠ Aborted.
Proof.
  revert s. induction tr as [|l tr IH]; intros s HQ HG HU; simpl; [done|].
  inversion_clear HQ as [|?? Hl Htr]. inversion_clear HG as [|?? Hg Hgs].
  destruct l as [w| | |]; try done.
  destruct (untouched_step w s HU) as (H1 & H2 & H3).
  destruct (step (LWorker w) s) as [s1| | |] eqn:E; try done. eauto.
Qed.

(** The worker threads start running while the constructor is still at
    work.  Before the first call of a member function, every run of
    theirs that does not end in undefined behaviour leaves the pool as
    constructed, every flag clear, [allowNewTasks_] set, [terminate_]
    clear, the queue empty; and as long as no wait returns spuriously, no
    statement of theirs is undefined or lets an exception escape.  A
    wait that returns spuriously is followed by [front()] on the empty
    queue ([early_spurious_wakeup_is_undefined]). *)
Theorem fresh_pool_stable (n : nat) (logStream : option (list string))
    (m : nat) (tr : list label) :
  Forall (λ l, worker_label l = true) tr →
  (∀ s, run tr (boot n logStream m) = Ok s →
     working_ s = replicate n false ∧ allowNewTasks_ s = true ∧
     terminate_ s = false ∧ tasks_ s = [] ∧ pushed s = []) ∧
  (Forall (λ l, genuine l = true) tr →
     run tr (boot n logStream m) ≠ Undefined ∧
     run tr (boot n logStream m) ≠ Aborted).
Proof.
  intros HQ. split.
  - intros s Hrun. by eapply fresh_pool_unchanged.
  - intros HG. apply untouched_run; [done..|].
    rewrite boot_spec. split_and!; simpl; [done|by rewrite !length_replicate|].
    by apply Forall_replicate.
Qed.

Lemma fresh_pool_stable_example :
  (working_ (after early_workers (boot 1 None 1)) = replicate 1 false ∧
   allowNewTasks_ (after early_workers (boot 1 None 1)) = true ∧
   terminate_ (after early_workers (boot 1 None 1)) = false ∧
   tasks_ (after early_workers (boot 1 None 1)) = [] ∧
   pushed (after early_workers (boot 1 None 1)) = []) ∧
  run falls_asleep (boot 1 None 1) ≠ Undefined ∧
  run falls_asleep (boot 1 None 1) ≠ Aborted.
Proof.
  split.
  - apply (fresh_pool_stable 1 None 1 early_workers); [repeat constructor|].
    apply run_after. vm_compute. reflexivity.
  - apply (fresh_pool_stable 1 None 1 falls_asleep); repeat constructor.
Defined.

(** The wait of l.197 is not in a loop: when it returns without a
    notification before any task was pushed, the worker's next statement
    is [front()] on the empty queue. *)
Lemma early_spurious_wakeup_is_undefined :
  completes early_workers (boot 1 None 1) = true ∧
  run early_spurious_wakeup (boot 1 None 1) = Undefined.
Proof. vm_compute. done. Qed.

(* ================================================================= *)
(** * Properties of [fib] *)

Section Fib.
Local Open Scope Z_scope.

Lemma fibonacci_SS k : fibonacci (S (S k)) = fibonacci (S k) + fibonacci k.
Proof. done. Qed.

Lemma fibonacci_nonneg k : 0 ≤ fibonacci k ∧ 0 ≤ fibonacci (S k).
Proof.
  induction k as [|k [IH1 IH2]]; [done|].
  rewrite fibonacci_SS. lia.
Qed.

Lemma fibonacci_mono j k : (j ≤ k)%nat → fibonacci j ≤ fibonacci k.
Proof.
  induction 1 as [|k Hle IH]; [done|].
  etrans; [exact IH|]. destruct k as [|k]; [done|].
  rewrite fibonacci_SS. pose proof (fibonacci_nonneg k). lia.
Qed.

(** The loop invariant: before the test of [i < n], [prev] and [curr] are
    the Fibonacci numbers [i - 1] and [i], reduced modulo 2^64. *)
Lemma fib_loop_spec j : ∀ fuel p,
  (j < fuel)%nat → (1 ≤ p)%nat →
  fib_loop fuel (Z.of_nat (p + j)) (Z.of_nat p)
    (fibonacci (p - 1) mod 2 ^ 64) (fibonacci p mod 2 ^ 64) =
  Some (fibonacci (p + j) mod 2 ^ 64).
Proof.
  induction j as [|j IH]; intros fuel p Hf Hp;
    (destruct fuel as [|fuel]; [lia|]).
  - rewrite Nat.add_0_r. simpl. by rewrite Z.ltb_irrefl.
  - cbn [fib_loop].
    assert ((Z.of_nat p <? Z.of_nat (p + S j)) = true) as ->
      by (apply Z.ltb_lt; lia).
    replace (p + S j)%nat with (S p + j)%nat by lia.
    replace (Z.of_nat p + 1) with (Z.of_nat (S p)) by lia.
    rewrite <- (IH fuel (S p)) by lia. f_equal.
    + by replace (S p - 1)%nat with p by lia.
    + unfold uint64_add. rewrite <- Zplus_mod.
      destruct p as [|p]; [lia|]. rewrite fibonacci_SS.
      replace (S p - 1)%nat with p by lia. f_equal. lia.
Qed.

Lemma fib_from_one (n : Z) :
  0 ≤ n → fib n = Some (fibonacci (Z.to_nat n) mod 2 ^ 64).
Proof.
  intros Hn. unfold fib. destruct (n =? 0) eqn:E.
  - apply Z.eqb_eq in E as ->. done.
  - apply Z.eqb_neq in E.
    pose proof (fib_loop_spec (Z.to_nat n - 1) (Z.to_nat n + 1) 1) as H.
    replace (1 + (Z.to_nat n - 1))%nat with (Z.to_nat n) in H by lia.
    rewrite Z2Nat.id in H by done. apply H; lia.
Qed.

(** [fib(n)] returns for every [n] that is not negative, and what it
    returns is the [n]-th Fibonacci number modulo 2^64: the additions on
    [uint64_t] wrap around. *)
Theorem fib_is_fibonacci_mod (n : Z) :
  0 ≤ n ≤ INT_MAX →
  fib n = Some (fibonacci (Z.to_nat n) mod 2 ^ 64).
Proof. intros [Hn _]. by apply fib_from_one. Qed.

Lemma fib_is_fibonacci_mod_witness :
  fib 10 = Some (fibonacci (Z.to_nat 10) mod 2 ^ 64).
Proof. apply (fib_is_fibonacci_mod 10). unfold INT_MAX. lia. Defined.

(** A negative argument is not rejected: the loop of l.18 does not run
    and [fib] returns 1. *)
Theorem fib_negative (n : Z) : INT_MIN ≤ n < 0 → fib n = Some 1.
Proof.
  intros [_ Hn]. unfold fib.
  assert ((n =? 0) = false) as -> by (apply Z.eqb_neq; lia).
  replace (Z.to_nat n) with 0%nat by lia. simpl.
  by assert ((1 <? n) = false) as -> by (apply Z.ltb_ge; lia).
Qed.

Lemma fib_negative_witness : fib (-5) = Some 1.
Proof. apply (fib_negative (-5)). unfold INT_MIN. lia. Defined.

Lemma fibonacci_93_94 :
  fibonacci 93 = 12200160415121876738 ∧ fibonacci 94 = 19740274219868223167.
Proof.
  assert (∀ k a b, Nat.iter k (λ '(a, b), (b, b + a)) (0, 1) = (a, b) →
                   fibonacci k = a ∧ fibonacci (S k) = b) as H.
  { induction k as [|k IH]; intros a b; simpl; [by intros [= <- <-]|].
    destruct (Nat.iter k _ _) as [a0 b0] eqn:E. intros [= <- <-].
    destruct (IH _ _ eq_refl) as [<- <-]. split; [done|].
    apply fibonacci_SS. }
  apply (H 93%nat). vm_compute. done.
Qed.

(** [fib(n)] is the [n]-th Fibonacci number itself exactly up to
    [n = 93]: the 94th Fibonacci number is the first that does not fit
    into 64 bits.  The arguments of the example, 0 to 60, are within
    this range. *)
Theorem fib_exact_up_to_93 (n : Z) :
  0 ≤ n ≤ INT_MAX →
  fib n = Some (fibonacci (Z.to_nat n)) ↔ n ≤ 93.
Proof.
  intros Hn. rewrite fib_from_one by lia.
  destruct fibonacci_93_94 as [H93 H94].
  pose proof (fibonacci_nonneg (Z.to_nat n)) as [H0 _].
  split.
  - intros [= Hmod]. destruct (decide (n ≤ 93)) as [|Hgt]; [done|].
    pose proof (fibonacci_mono 94 (Z.to_nat n) ltac:(lia)) as Hm.
    pose proof (Z.mod_pos_bound (fibonacci (Z.to_nat n)) (2 ^ 64) ltac:(lia)).
    lia.
  - intros Hle. f_equal. apply Z.mod_small. split; [done|].
    pose proof (fibonacci_mono (Z.to_nat n) 93 ltac:(lia)) as Hm. lia.
Qed.

Lemma fib_exact_up_to_93_witness :
  fib 60 = Some (fibonacci (Z.to_nat 60)) ↔ 60 ≤ 93.
Proof. apply (fib_exact_up_to_93 60). unfold INT_MAX. lia. Defined.

End Fib.

(* ================================================================= *)
(** * Properties of the [Optional] wrappers *)

Section OptionalProperties.
Context {T : Type} (copy_T : T → option T).
Implicit Types (w : Objects T) (h : list (option T)) (os : list object).

Lemma member_lt os i p : member os i = Some p → i < length os.
Proof.
  unfold member. destruct (os !! i) eqn:E; [|done].
  intros _. by eapply lookup_lt_Some.
Qed.

Lemma member_insert os i p j :
  i < length os →
  member (<[i := Alive p]> os) j = if decide (j = i) then Some p else member os j.
Proof.
  intros Hi. unfold member. destruct (decide (j = i)) as [->|].
  - by rewrite list_lookup_insert_eq.
  - by rewrite list_lookup_insert_ne.
Qed.

Lemma member_insert_dead os i j :
  member (<[i := Dead]> os) j = if decide (j = i) then None else member os j.
Proof.
  unfold member. destruct (decide (j = i)) as [->|].
  - destruct (decide (i < length os)).
    + by rewrite list_lookup_insert_eq.
    + rewrite list_insert_ge by lia.
      by rewrite (proj2 (lookup_ge_None _ _)) by lia.
  - by rewrite list_lookup_insert_ne.
Qed.

Lemma member_snoc os p j :
  member (os ++ [Alive p]) j =
  if decide (j = length os) then Some p else member os j.
Proof.
  unfold member. destruct (decide (j = length os)) as [->|].
  - by rewrite lookup_app_r, Nat.sub_diag.
  - destruct (decide (j < length os)).
    + by rewrite lookup_app_l.
    + rewrite !(proj2 (lookup_ge_None _ _)); [done|lia|].
      rewrite length_app. simpl. lia.
Qed.

Lemma store_snoc h (v : T) l x :
  (h ++ [Some v]) !! l = Some (Some x) ↔
  h !! l = Some (Some x) ∨ (l = length h ∧ x = v).
Proof.
  rewrite lookup_app_Some. split.
  - intros [?|[Hl E]]; [by left|right].
    destruct (l - length h) as [|k] eqn:Ek; simplify_eq/=. split; [lia|done].
  - intros [?|[-> ->]]; [by left|right]. split; [lia|].
    by rewrite Nat.sub_diag.
Qed.

Lemma store_delete h p l (x : T) :
  delete p h !! l = Some (Some x) ↔ h !! l = Some (Some x) ∧ p ≠ Some l.
Proof.
  destruct p as [l'|]; simpl;
    [|split; [intros ?; split; [assumption|discriminate]
             |intros [? _]; assumption]].
  rewrite list_lookup_insert_Some. split.
  - intros [(? & ? & ?)|[Hne E]]; [done|]. split; [done|congruence].
  - intros [E Hne]. right. split; [congruence|done].
Qed.

Ltac ops_cases H :=
  unfold exec, Copyable_copy, Copyable_assign, NonCopyable_copy,
    NonCopyable_assign, move_ctor, move_assign, release, destroy, clone,
    Optional_from_args, Optional_from_ptr, Optional_default, set_t, star,
    make_unique in H;
  repeat case_match; simplify_eq/=; unfold t_ in *; simpl in *.

(** What the two halves of [owned] say about the facts at hand. *)
Ltac saturate Hlive Huniq :=
  repeat match goal with
  | E : member ?os ?i = Some (Some ?l) |- _ =>
      lazymatch goal with
      | _ : l < length _ |- _ => fail
      | _ =>
          let v := fresh "v" in let Hv := fresh "Hv" in
          destruct (Hlive _ _ E) as [v Hv];
          pose proof (lookup_lt_Some _ _ _ Hv)
      end
  end;
  repeat match goal with
  | E1 : member ?os ?i = Some (Some ?l), E2 : member ?os ?j = Some (Some ?l)
    |- _ =>
      lazymatch i with
      | j => fail
      | _ => pose proof (Huniq _ _ _ E1 E2); subst
      end
  end.

Ltac member_bounds :=
  repeat match goal with
  | E : member ?os ?i = Some _ |- _ =>
      lazymatch goal with
      | _ : i < length os |- _ => fail
      | _ => pose proof (member_lt _ _ _ E)
      end
  end.

Ltac rewrite_members_in_hyps :=
  repeat match goal with
  | H : context [member (<[_ := Alive _]> _) _] |- _ =>
      rewrite member_insert in H by (rewrite ?length_insert; done)
  end;
  repeat case_decide; simplify_eq/=.

Ltac rewrite_members :=
  repeat first
    [ rewrite member_snoc
    | rewrite member_insert_dead
    | rewrite member_insert by (rewrite ?length_insert; done) ];
  rewrite ?length_insert.

Lemma exec_owned k o w w' :
  owned w → exec copy_T k o w = Value w' → owned w'.
Proof.
  intros [Hlive Huniq] H. unfold owned, t_ in *.
  ops_cases H.
  all: member_bounds; rewrite_members_in_hyps.
  all: split; [intros i0 l0 | intros i0 j0 l0]; simpl.
  all: rewrite_members.
  all: repeat case_decide; simplify_eq/=.
  all: try setoid_rewrite store_delete; try setoid_rewrite store_snoc.
  all: intros; simplify_eq/=.
  all: saturate Hlive Huniq.
  all: try done; try lia; eauto.
  all: try (eexists; split;
            [by eauto
            |intros ?; simplify_eq; saturate Hlive Huniq; try done; lia]).
Qed.

Lemma exec_leak_free k o w w' :
  owned w → leak_free w → tidy k o = true →
  exec copy_T k o w = Value w' → leak_free w'.
Proof.
  intros [Hlive Huniq] Hleak Ht H. unfold leak_free, t_ in *.
  ops_cases H.
  all: member_bounds; rewrite_members_in_hyps.
  all: intros lx vx; simpl.
  all: try setoid_rewrite store_delete; try setoid_rewrite store_snoc.
  all: intros; destruct_and?; destruct_or?; destruct_and?; simplify_eq/=.
  all: try match goal with
       | Hs : store ?w0 !! ?l = Some (Some _) |- _ =>
           let ix := fresh "ix" in let Hix := fresh "Hix" in
           destruct (Hleak _ _ Hs) as [ix Hix];
           pose proof (member_lt _ _ _ Hix);
           repeat match goal with
           | E : member (objects w0) ?j = Some _ |- _ =>
               lazymatch j with
               | ix => fail
               | _ =>
                   lazymatch goal with
                   | _ : ix ≠ j |- _ => fail
                   | _ => destruct (decide (ix = j)) as [->|]; simplify_eq/=
                   end
               end
           end
       end.
  all: first
    [ match goal with
      | Hl : ∀ i l, member (objects ?w0) i = Some (Some l) → _ |- _ =>
          solve [ exists (length (objects w0)); rewrite_members;
                  repeat case_decide; simplify_eq/=; try done; lia ]
      end
    | match goal with
      | E : member (objects _) ?j = Some _ |- _ =>
          solve [ exists j; rewrite_members;
                  repeat case_decide; simplify_eq/=;
                  saturate Hlive Huniq; try done; try lia; congruence ]
      end
    | idtac ].
Qed.

Lemma exec_leaked k o w w' l :
  owned w → leaked l w → exec copy_T k o w = Value w' → leaked l w'.
Proof.
  intros [Hlive Huniq] [[vl Hvl] Hno] H. unfold leaked, t_ in *.
  pose proof (lookup_lt_Some _ _ _ Hvl).
  ops_cases H.
  all: member_bounds; rewrite_members_in_hyps.
  all: split; [exists vl|intros ix]; simpl.
  all: rewrite ?store_delete, ?store_snoc.
  all: rewrite_members; repeat case_decide; simplify_eq/=.
  all: try done; auto.
  all: try (split; [by auto|]).
  all: try (intros ?; simplify_eq/=; saturate Hlive Huniq).
  all: try (by eapply Hno).
  all: try lia.
Qed.

Lemma execs_preserves (P : Objects T → Prop) (Q : operation T → Prop) k :
  (∀ o w w', Q o → P w → exec copy_T k o w = Value w' → P w') →
  ∀ prog w w', Forall Q prog → P w → execs copy_T k prog w = Value w' → P w'.
Proof.
  intros Hstep prog. induction prog as [|o prog IH]; intros w w' HQ HP H; simpl in *.
  - by simplify_eq.
  - inversion_clear HQ as [|?? Ho Hos].
    destruct (exec copy_T k o w) as [w1| |] eqn:E; try done. eauto.
Qed.

Lemma no_objects_owned : owned (@no_objects T).
Proof. split; intros i; intros; unfold t_, member in *; simpl in *; done. Qed.

(** No operation of either wrapper makes a pointer dangle or lets two
    objects own the same [T]: whatever a program does with its
    [Copyable<T>] objects, or its [NonCopyable<T>] objects, as long as it
    does not run into undefined behaviour, every object that is not empty
    owns a [T] that is alive, which [operator*] returns, and that no other
    object owns; so no [T] is deleted twice. *)
Theorem wrappers_never_dangle (k : wrapper) (prog : list (operation T))
    (w0 w : Objects T) :
  owned w0 →
  execs copy_T k prog w0 = Value w →
  (∀ i l, t_ w i = Some (Some l) → ∃ v, operator_star w i = Value v) ∧
  (∀ i j l, t_ w i = Some (Some l) → t_ w j = Some (Some l) → i = j).
Proof.
  intros H0 H.
  assert (owned w) as [Hlive Huniq].
  { eapply (execs_preserves owned (λ _, True)); [|by apply Forall_true| |done];
      [|done]. intros o w1 w2 _. apply exec_owned. }
  split; [|done]. intros i l Hi. destruct (Hlive _ _ Hi) as [v Hv].
  exists v. unfold operator_star, star. by rewrite Hi, Hv.
Qed.

(** [Copyable<T>] does not leak: as long as [release()] is not called,
    every [T] that a program has made through its [Copyable<T>] objects
    and that is still on the free store is owned by one of the objects.
    The same holds for [NonCopyable<T>] objects as long as neither
    [release()] nor the copy assignment is used. *)
Theorem tidy_operations_do_not_leak (k : wrapper) (prog : list (operation T))
    (w : Objects T) :
  Forall (λ o, tidy k o = true) prog →
  execs copy_T k prog no_objects = Value w →
  leak_free w.
Proof.
  intros HQ H.
  cut (owned w ∧ leak_free w); [by intros [_ ?]|].
  eapply (execs_preserves (λ x, owned x ∧ leak_free x)
            (λ o, tidy k o = true)); [|exact HQ| |exact H].
  - intros o w1 w2 Ho [? ?] E. split.
    + by eapply exec_owned.
    + by eapply exec_leak_free.
  - split; [apply no_objects_owned|]. by intros l v Hl.
Qed.

(** [release()] (l.39) and the copy assignment of [NonCopyable<T>]
    (l.132-135) call [t_.release()] and drop the pointer it returns.  When
    the object owned a [T], the wrappers have lost it: the object is empty
    after the call, and whatever operations of the wrappers the program
    applies to its objects later, none deletes that [T], none makes an
    object own it again, and no [operator->] returns its address.  Only
    an address that the program took from [operator->] (l.37) before the
    call still leads to it. *)
Theorem dropped_pointer_leaks (k : wrapper) (o : operation T) (this l : nat)
    (w w1 : Objects T) :
  owned w →
  t_ w this = Some (Some l) →
  o = CallRelease this ∨ (k = IsNonCopyable ∧ ∃ other, o = CopyAssign this other) →
  exec copy_T k o w = Value w1 →
  operator_arrow w this = Value (Some l) ∧
  t_ w1 this = Some None ∧
  ∀ prog w2, execs copy_T k prog w1 = Value w2 →
    leaked l w2 ∧ ∀ i, operator_arrow w2 i ≠ Value (Some l).
Proof.
  intros Ho Ht Hop H.
  split; [by unfold operator_arrow; rewrite Ht|].
  assert (owned w1) as Ho1 by (by eapply exec_owned).
  assert (t_ w1 this = Some None ∧ leaked l w1) as [Ht1 Hl1].
  { destruct Ho as [Hlive Huniq]. destruct (Hlive _ _ Ht) as [v Hv].
    pose proof (member_lt _ _ _ Ht) as Hlt.
    assert (w1 = set_t this None w) as ->.
    { destruct Hop as [->|(-> & other & ->)]; simpl in H.
      - unfold release in H. rewrite Ht in H. by simplify_eq.
      - unfold NonCopyable_assign in H. rewrite Ht in H.
        destruct (t_ w other); by simplify_eq. }
    unfold leaked, t_, set_t in *; simpl.
    split; [by rewrite member_insert, decide_True|].
    split; [by exists v|]. intros i. rewrite member_insert by done.
    case_decide; [done|]. intros Hi. by pose proof (Huniq _ _ _ Hi Ht). }
  split; [done|]. intros prog w2 H2.
  cut (owned w2 ∧ leaked l w2).
  { intros [_ [Hv Hno]]. split; [done|]. intros i. unfold operator_arrow.
    specialize (Hno i). destruct (t_ w2 i); congruence. }
  eapply (execs_preserves (λ x, owned x ∧ leaked l x) (λ _, True));
    [|by apply Forall_true| |exact H2]; [|done].
  intros o' x y _ [? ?] E. split.
  - by eapply exec_owned.
  - by eapply exec_leaked.
Qed.

(** What the copy constructor of [Copyable<T>] does (l.76-77).  Copying
    an object that owns nothing is undefined behaviour, the null [t_]
    being dereferenced.  Copying an object that owns a [T] calls the copy
    constructor of [T]: when that throws, the exception leaves the
    constructor; otherwise the new object owns a new [T], the copy, at an
    address of its own, and the original still owns its [T]. *)
Theorem Copyable_copy_spec (other : nat) (p : option nat) (w : Objects T) :
  owned w →
  t_ w other = Some p →
  match p with
  | None => Copyable_copy copy_T other w = UndefinedBehaviour
  | Some l =>
      ∃ v, operator_star w other = Value v ∧
        match copy_T v with
        | None => Copyable_copy copy_T other w = Exception
        | Some v' =>
            ∃ w', Copyable_copy copy_T other w = Value w' ∧
                  t_ w' (length (objects w)) = Some (Some (length (store w))) ∧
                  length (store w) ≠ l ∧
                  operator_star w' (length (objects w)) = Value v' ∧
                  t_ w' other = Some (Some l) ∧
                  operator_star w' other = Value v
        end
  end.
Proof.
  intros [Hlive Huniq] Ht. destruct p as [l|].
  - destruct (Hlive _ _ Ht) as [v Hv]. exists v.
    pose proof (lookup_lt_Some _ _ _ Hv) as Hl.
    pose proof (member_lt _ _ _ Ht) as Ho.
    unfold operator_star, Copyable_copy, clone, star. rewrite Ht, Hv.
    split; [done|]. destruct (copy_T v) as [v'|]; [|done].
    eexists. split; [done|].
    unfold t_, Optional_from_ptr, make_unique; simpl.
    rewrite !member_snoc, decide_True, decide_False by lia.
    unfold t_ in Ht. rewrite Ht.
    rewrite lookup_app_r, Nat.sub_diag by done. simpl.
    rewrite lookup_app_l, Hv by done.
    split_and!; try done. lia.
  - unfold Copyable_copy, clone, star. by rewrite Ht.
Qed.

End OptionalProperties.

Lemma wrappers_never_dangle_witness :
  (∀ i l, t_ copy_program_done i = Some (Some l) →
     ∃ v, operator_star copy_program_done i = Value v) ∧
  (∀ i j l, t_ copy_program_done i = Some (Some l) →
     t_ copy_program_done j = Some (Some l) → i = j).
Proof.
  apply (wrappers_never_dangle copies IsCopyable copy_program no_objects).
  - apply no_objects_owned.
  - vm_compute. reflexivity.
Defined.

Lemma tidy_operations_do_not_leak_witness : leak_free copy_program_done.
Proof.
  apply (tidy_operations_do_not_leak copies IsCopyable copy_program).
  - repeat constructor.
  - vm_compute. reflexivity.
Defined.

Lemma dropped_pointer_leaks_witness :
  operator_arrow one_object 0 = Value (Some 0) ∧
  t_ one_released 0 = Some None ∧
  ∀ prog w2, execs copies IsCopyable prog one_released = Value w2 →
    leaked 0 w2 ∧ ∀ i, operator_arrow w2 i ≠ Value (Some 0).
Proof.
  apply (dropped_pointer_leaks copies IsCopyable (CallRelease 0) 0 0 one_object).
  - apply (exec_owned copies IsCopyable (ConstructFrom 7) no_objects).
    + apply no_objects_owned.
    + reflexivity.
  - reflexivity.
  - left. reflexivity.
  - reflexivity.
Defined.

Lemma Copyable_copy_spec_witness :
  Copyable_copy copies 1 full_and_empty = UndefinedBehaviour.
Proof.
  apply (Copyable_copy_spec copies 1 None full_and_empty).
  - apply (exec_owned copies IsCopyable Construct one_object); [|reflexivity].
    apply (exec_owned copies IsCopyable (ConstructFrom 7) no_objects).
    + apply no_objects_owned.
    + reflexivity.
  - reflexivity.
Defined.

(** A [T] whose copy constructor throws: the copy of a [Copyable] that
    owns one throws, the copy of a [NonCopyable] is an empty object. *)
Lemma copy_of_throwing_T :
  Copyable_copy throws 0 one_object = Exception ∧
  NonCopyable_copy 0 one_object = Value (Optional_default one_object).
Proof. done. Qed.
